(** * Herald: the advertisement publisher of ipni/herald, embedded in Rocq

    The development follows the Go sources:
    - [options.go]            : [options], [newOptions] and the [With...] setters;
    - [herald.go]             : [Catalog], [Herald], [New];
    - the datastore publisher : [dsPublisher] with [generateEntries],
      [generateAdvertisement], [Publish], [Retract], [GetContent], [GetHead];
    - the HTTP publisher      : [handleGetHead], [handleGetContent].

    Go values are modelled by their data: [[]byte] is [list byte], a Go
    [string] is [string], the Go [int] chunk size is a [Z], an [ipld.Link]
    (an interface that is nil or a [cidlink.Link]) is an [option Cid].
    The datastore is a finite map from key strings to byte strings, threaded
    through every operation together with the faults that the backend is
    going to raise.  Functions of the vendored libraries (go-cid, go-ipld-prime,
    go-libipni, libp2p) are collected in the record [Libs]; what the proofs
    need to know about them is stated as section hypotheses, one by one. *)

From Stdlib Require Import ZArith Lia List String Ascii Permutation.
From Stdlib Require Import Strings.Byte.
From stdpp Require Import base option list gmap strings.
Import ListNotations.
Open Scope Z_scope.

#[global] Instance byte_eq_decision : EqDecision byte := byte_eq_dec.

(** ** Errors *)

(** Go [error] values.  [ErrNotFound] is [datastore.ErrNotFound],
    [ErrContentNotFound] is the package's own sentinel, [ErrorString] is any
    other error ([errors.New] and the failures of the libraries).  [Panic]
    stands for a run-time panic, which unwinds through every caller of the
    model exactly as an error that no [errors.Is] test recognises. *)
Inductive error : Type :=
| ErrNotFound
| ErrContentNotFound
| ErrorString (msg : string)
| Panic (msg : string).

#[global] Instance error_eq_decision : EqDecision error.
Proof. solve_decision. Defined.

(** [errors.Is(err, datastore.ErrNotFound)] and
    [errors.Is(err, ErrContentNotFound)] on the errors of the model. *)
Definition is_ErrNotFound (e : error) : bool :=
  match e with ErrNotFound => true | _ => false end.

Definition is_ErrContentNotFound (e : error) : bool :=
  match e with ErrContentNotFound => true | _ => false end.

(** ** Data model *)

(** [multihash.Multihash] is a byte slice. *)
Definition Multihash : Type := list byte.

(** [cid.Cid] is [struct { str string }]: the binary form of the identifier.
    [cid.Undef] is the zero value, [Bytes] returns the binary form and
    [Equals] compares the two strings. *)
Record Cid : Type := mkCid { cid_str : list byte }.

#[global] Instance Cid_eq_decision : EqDecision Cid.
Proof. solve_decision. Defined.

Definition Undef : Cid := mkCid [].
Definition Cid_Bytes (c : Cid) : list byte := cid_str c.
Definition Cid_Equals (c o : Cid) : bool := bool_decide (c = o).

(** [ipld.Link]: [None] is the nil interface, [Some c] is [cidlink.Link{Cid: c}]. *)
Definition Link : Type := option Cid.

Definition CatalogID : Type := list byte.

(** [schema.EntryChunk]. *)
Record EntryChunk : Type := mkEntryChunk {
  chunk_Entries : list Multihash;
  chunk_Next : Link
}.

(** [schema.Advertisement] (the fields that herald fills in, and the
    signature that [Sign] adds). *)
Record Advertisement : Type := mkAdvertisement {
  ad_PreviousID : Link;
  ad_Provider : string;
  ad_Addresses : list string;
  ad_Entries : Link;
  ad_ContextID : list byte;
  ad_Metadata : list byte;
  ad_IsRm : bool;
  ad_Signature : list byte
}.

(** An IPLD node as [ToNode] builds it: a typed view of the Go value. *)
Inductive Node : Type :=
| NodeEntryChunk (c : EntryChunk)
| NodeAdvertisement (a : Advertisement).

(** [crypto.PrivKey], [peer.ID] and [multiaddr.Multiaddr] by the data they
    carry; a peer ID and a multiaddress are used through [String] only. *)
Record PrivKey : Type := mkPrivKey { key_raw : list byte }.
Record PeerID : Type := mkPeerID { peerID_String : string }.
Record Multiaddr : Type := mkMultiaddr { ma_String : string }.

(** [metadata.Metadata] is only used through [MarshalBinary]: the value is
    modelled by what that call returns (a nil slice is [None]). *)
Record Metadata : Type := mkMetadata {
  md_MarshalBinary : option (list byte) * option error
}.

(** The head message of go-libipni ([head.SignedHead]). *)
Record SignedHead : Type := mkSignedHead {
  sh_Head : Cid;
  sh_Topic : string;
  sh_Sig : list byte
}.

(** The catalog interface of [herald.go].  The iterator is a finite sequence
    of the results that successive [Next] calls return; [Done] holds when the
    sequence is exhausted. *)
Record Catalog : Type := mkCatalog {
  catalog_ID : list byte;
  catalog_Iterator : list (error + Multihash)
}.

(** The datastore handle of [options.ds]: either one that the embedder
    supplied or the in-memory map that [newOptions] falls back to. *)
Inductive Datastore : Type :=
| UserDatastore (name : string)
| MapDatastore.

(** [options] of [options.go].  A nil slice, a nil key and a nil datastore
    are [None]. *)
Record options : Type := mkOptions {
  httpPublisherListenAddr : string;
  topic : string;
  id : PeerID;
  identity : option PrivKey;
  providerAddrs : option (list string);
  localPublisherDir : string;
  adEntriesChunkSize : Z;
  ds : option Datastore;
  metadata : option (list byte)
}.

(** [Herald] embeds a pointer to [options]; the publishers hold no data of their own. *)
Record Herald : Type := mkHerald { herald_options : options }.

(** ** The vendored libraries *)

(** What herald calls in go-cid, go-ipld-prime, go-libipni and libp2p.  These
    functions are not part of the repository; they are parameters of the
    development. *)
Record Libs : Type := mkLibs {
  (* go-cid *)
  Cid_String : Cid -> string;                      (* c.String() *)
  Cid_Decode : string -> error + Cid;              (* cid.Decode *)
  CidFromBytes : list byte -> Cid * option error;  (* cid.CidFromBytes, without the length *)
  Cid_Codec : Cid -> Z;                            (* c.Prefix().Codec *)
  (* go-libipni/ingest/schema *)
  NoEntriesCid : Cid;                              (* the CID inside schema.NoEntries *)
  Advertisement_Sign : option PrivKey -> Advertisement -> error + list byte;
  ToNode_error : Node -> option error;             (* the failure of a ToNode call *)
  (* go-ipld-prime, at schema.Linkproto *)
  ls_encode : Node -> error + list byte;           (* the encoder the prototype selects *)
  ls_decode : list byte -> option Node;            (* the matching decoder *)
  BuildLink : list byte -> Cid;                    (* hash the bytes, build the link *)
  (* go-libipni/dagsync/ipnisync/head *)
  SignedHead_sign : Cid -> string -> option PrivKey -> error + list byte;
  SignedHead_Encode : SignedHead -> error + list byte;
  (* libp2p *)
  peer_IDFromPrivateKey : PrivKey -> error + PeerID;
  GenerateEd25519Key : error + PrivKey             (* the outcome of crypto.GenerateEd25519Key(rand.Reader) *)
}.

(** Codec tags of go-cid. *)
Definition DagJSON : Z := 297.   (* 0x0129 *)
Definition DagCBOR : Z := 113.   (* 0x71 *)

(** ** The datastore and the effect monad *)

(** The state that herald's code runs against: the contents of the
    datastore and the fate of the coming datastore calls.  The head of
    [faults] decides the next [Get] or [Put]: [Some msg] makes it fail with
    that message and leaves the contents as they are, [None] lets it
    through; when the list is exhausted every call goes through.  A value
    is stored by value: the datastore keeps its own copy of the bytes it is
    handed, as a backend that writes them out does.  (A backend that kept
    the slice itself would see it change when [storageWriteOpener] takes the
    pooled buffer again; such a backend is outside this model.) *)
Record World : Type := mkWorld {
  kv : gmap string (list byte);
  faults : list (option string)
}.

Definition M (A : Type) : Type := World -> (error + A) * World.

Definition ret {A} (a : A) : M A := fun w => (inr a, w).
Definition fail {A} (e : error) : M A := fun w => (inl e, w).
Definition lift {A} (r : error + A) : M A := fun w => (r, w).
Definition bind {A B} (m : M A) (k : A -> M B) : M B :=
  fun w => match m w with
           | (inl e, w') => (inl e, w')
           | (inr a, w') => k a w'
           end.

Notation "'do' x <- m ; k" := (bind m (fun x => k))
  (at level 10, x name, m at level 100, k at level 200).

(** [datastore.NewKey]: the key of a name is the name under the root.  (The
    path cleaning of the library is the identity on the names herald uses: a
    CID string and the word head.) *)
Definition NewKey (s : string) : string := String "/" s.

Definition next_fault (w : World) : option string * World :=
  match faults w with
  | [] => (None, w)
  | f :: fs => (f, mkWorld (kv w) fs)
  end.

(** [ds.Get] and [ds.Put] of the [datastore.Datastore] interface. *)
Definition ds_Get (key : string) : M (list byte) := fun w =>
  let '(f, w1) := next_fault w in
  match f with
  | Some msg => (inl (ErrorString msg), w1)
  | None => match kv w1 !! key with
            | Some v => (inr v, w1)
            | None => (inl ErrNotFound, w1)
            end
  end.

Definition ds_Put (key : string) (value : list byte) : M unit := fun w =>
  let '(f, w1) := next_fault w in
  match f with
  | Some msg => (inl (ErrorString msg), w1)
  | None => (inr tt, mkWorld (<[key := value]> (kv w1)) (faults w1))
  end.

(** ** The datastore publisher *)

Section Publisher.

Variable L : Libs.

Definition headKey : string := NewKey "head".

(** [dsKey]: the datastore key of a link is the string form of its CID. *)
Definition dsKey (c : Cid) : string := NewKey (Cid_String L c).

(** [schema.NoEntries]. *)
Definition NoEntries : Link := Some (NoEntriesCid L).

(** [EntryChunk.ToNode] and [Advertisement.ToNode]. *)
Definition EntryChunk_ToNode (c : EntryChunk) : error + Node :=
  match ToNode_error L (NodeEntryChunk c) with
  | Some e => inl e
  | None => inr (NodeEntryChunk c)
  end.

Definition Advertisement_ToNode (a : Advertisement) : error + Node :=
  match ToNode_error L (NodeAdvertisement a) with
  | Some e => inl e
  | None => inr (NodeAdvertisement a)
  end.

(** [l.ls.Store(ctx, schema.Linkproto, n)]: the link system encodes the
    node into the buffer that [storageWriteOpener] hands out, builds the
    link from the hash of the bytes, and commits, which is
    [l.h.ds.Put(ctx, dsKey(lnk), buf.Bytes())]. *)
Definition ls_Store (n : Node) : M Cid :=
  do bs <- lift (ls_encode L n);
  let lnk := BuildLink L bs in
  do _ <- ds_Put (dsKey lnk) bs;
  ret lnk.

Variable h : Herald.

Definition generateEntriesChunk (next : Link) (mhs : list Multihash) : M Link :=
  do chunk <- lift (EntryChunk_ToNode (mkEntryChunk mhs next));
  do lnk <- ls_Store chunk;
  ret (Some lnk).

(** The loop of [generateEntries] over what is left of the iterator, with
    the buffer [mhs] and the running link [next]. *)
Fixpoint generateEntries_loop (iter : list (error + Multihash))
    (mhs : list Multihash) (next : Link) : M Link :=
  match iter with
  | [] =>
      if negb (Nat.eqb (length mhs) 0)
      then generateEntriesChunk next mhs
      else ret next
  | r :: iter' =>
      match r with
      | inl err => fail err
      | inr mh =>
          let mhs := mhs ++ [mh] in
          if Z.of_nat (length mhs) >=? adEntriesChunkSize (herald_options h)
          then do next <- generateEntriesChunk next mhs;
               generateEntries_loop iter' [] next
          else generateEntries_loop iter' mhs next
      end
  end.

(** [make([]multihash.Multihash, 0, l.h.adEntriesChunkSize)] panics on a
    negative capacity. *)
Definition generateEntries (catalog : Catalog) : M Link :=
  if adEntriesChunkSize (herald_options h) <? 0
  then fail (Panic "makeslice: cap out of range")
  else generateEntries_loop (catalog_Iterator catalog) [] None.

Definition GetHead : M Cid := fun w =>
  match ds_Get headKey w with
  | (inl err, w') =>
      if is_ErrNotFound err then (inr Undef, w') else (inl err, w')
  | (inr value, w') =>
      let '(head, _) := CidFromBytes L value in (inr head, w')
  end.

(** The advertisement that [generateAdvertisement] fills in before it is
    signed; [Sign] then sets the signature. *)
Definition newAdvertisement (previousID : Link) (catalogID : CatalogID)
    (entries : Link) (isRm : bool) (sig : list byte) : Advertisement :=
  mkAdvertisement previousID
    (peerID_String (id (herald_options h)))
    (default [] (providerAddrs (herald_options h)))
    entries catalogID
    (default [] (metadata (herald_options h)))
    isRm sig.

Definition generateAdvertisement (catalogID : CatalogID) (entries : Link)
    (isRm : bool) : M Cid :=
  do head <- GetHead;
  let previousID : Link := if Cid_Equals Undef head then None else Some head in
  let ad := newAdvertisement previousID catalogID entries isRm [] in
  do sig <- lift (Advertisement_Sign L (identity (herald_options h)) ad);
  let ad := newAdvertisement previousID catalogID entries isRm sig in
  do adNode <- lift (Advertisement_ToNode ad);
  do newHead <- ls_Store adNode;
  do _ <- ds_Put headKey (Cid_Bytes newHead);
  ret newHead.

Definition Publish (catalog : Catalog) : M Cid :=
  do entries <- generateEntries catalog;
  generateAdvertisement (catalog_ID catalog) entries false.

Definition Retract (catalogID : CatalogID) : M Cid :=
  generateAdvertisement catalogID NoEntries true.

(** [GetContent]: the bytes that the returned reader yields. *)
Definition GetContent (c : Cid) : M (list byte) := fun w =>
  match ds_Get (dsKey c) w with
  | (inl err, w') =>
      if is_ErrNotFound err then (inl ErrContentNotFound, w') else (inl err, w')
  | (inr value, w') => (inr value, w')
  end.

End Publisher.

(** ** The HTTP publisher *)

(** What the handlers read of an [http.Request] and what they write to the
    [http.ResponseWriter]. *)
Record Request : Type := mkRequest {
  req_Method : string;
  req_Path : string;       (* r.URL.Path *)
  req_RawPath : string     (* r.URL.RawPath *)
}.

Record Response : Type := mkResponse {
  resp_Status : Z;
  resp_ContentType : option string;
  resp_Body : list byte
}.

Definition StatusOK : Z := 200.
Definition StatusNoContent : Z := 204.
Definition StatusBadRequest : Z := 400.
Definition StatusNotFound : Z := 404.
Definition StatusMethodNotAllowed : Z := 405.
Definition StatusInternalServerError : Z := 500.
Definition MethodGet : string := "GET".

(** [http.Error]: a plain-text reply, the message followed by a newline. *)
Definition http_Error (msg : string) (code : Z) : Response :=
  mkResponse code (Some "text/plain; charset=utf-8")
    (list_byte_of_string (msg +:+ String (ascii_of_nat 10) EmptyString)).

(** [strings.HasPrefix] and [strings.TrimPrefix] of the Go standard library. *)
Fixpoint strings_HasPrefix (s prefix : string) : bool :=
  match prefix with
  | EmptyString => true
  | String c prefix' =>
      match s with
      | EmptyString => false
      | String d s' => if Ascii.eqb c d then strings_HasPrefix s' prefix' else false
      end
  end.

Fixpoint string_drop (n : nat) (s : string) : string :=
  match n, s with
  | O, _ => s
  | S n', String _ s' => string_drop n' s'
  | S _, EmptyString => EmptyString
  end.

Definition strings_TrimPrefix (s prefix : string) : string :=
  if strings_HasPrefix s prefix then string_drop (String.length prefix) s else s.

Section HttpPublisher.

Variable L : Libs.
Variable h : Herald.

Definition handleGetHead (r : Request) (w : World) : Response * World :=
  if negb (String.eqb (req_Method r) MethodGet)
  then (http_Error "method not allowed" StatusMethodNotAllowed, w)
  else
    match GetHead L w with
    | (inl _, w') => (http_Error "" StatusInternalServerError, w')
    | (inr hd, w') =>
        if Cid_Equals Undef hd
        then (http_Error "" StatusNoContent, w')
        else
          match SignedHead_sign L hd (topic (herald_options h))
                  (identity (herald_options h)) with
          | inl _ => (http_Error "" StatusInternalServerError, w')
          | inr sig =>
              match SignedHead_Encode L
                      (mkSignedHead hd (topic (herald_options h)) sig) with
              | inl _ => (http_Error "" StatusInternalServerError, w')
              | inr resp =>
                  (mkResponse StatusOK (Some "application/json") resp, w')
              end
          end
    end.

Definition handleGetContent (r : Request) (w : World) : Response * World :=
  if negb (String.eqb (req_Method r) MethodGet)
  then (http_Error "method not allowed" StatusMethodNotAllowed, w)
  else
    let pathParam := strings_TrimPrefix "/" (req_RawPath r) in
    match Cid_Decode L pathParam with
    | inl _ => (http_Error ("invalid CID: " +:+ pathParam) StatusBadRequest, w)
    | inr c =>
        match GetContent L c w with
        | (inl err, w') =>
            if is_ErrContentNotFound err
            then (http_Error "" StatusNotFound, w')
            else (http_Error "" StatusInternalServerError, w')
        | (inr body, w') =>
            let contentType :=
              if Cid_Codec L c =? DagJSON then Some "application/json"
              else if Cid_Codec L c =? DagCBOR then Some "application/cbor"
              else None in
            (mkResponse StatusOK contentType body, w')
        end
    end.

End HttpPublisher.

(** ** Options and construction *)

(** An [Option] is a Go function from a pointer to [options] to [error]: it
    updates the options in place and may report an error. *)
Definition Option : Type := options -> options * option error.

Definition WithHttpPublisherListenAddr (v : string) : Option := fun o =>
  (mkOptions v (topic o) (id o) (identity o) (providerAddrs o)
     (localPublisherDir o) (adEntriesChunkSize o) (ds o) (metadata o), None).

Definition WithTopic (v : string) : Option := fun o =>
  (mkOptions (httpPublisherListenAddr o) v (id o) (identity o) (providerAddrs o)
     (localPublisherDir o) (adEntriesChunkSize o) (ds o) (metadata o), None).

Definition WithProviderAddress (a : list Multiaddr) : Option := fun o =>
  (mkOptions (httpPublisherListenAddr o) (topic o) (id o) (identity o)
     (Some (map ma_String a))
     (localPublisherDir o) (adEntriesChunkSize o) (ds o) (metadata o), None).

Definition WithLocalPublisherDir (v : string) : Option := fun o =>
  (mkOptions (httpPublisherListenAddr o) (topic o) (id o) (identity o)
     (providerAddrs o) v (adEntriesChunkSize o) (ds o) (metadata o), None).

Definition WithAdEntriesChunkSize (v : Z) : Option := fun o =>
  (mkOptions (httpPublisherListenAddr o) (topic o) (id o) (identity o)
     (providerAddrs o) (localPublisherDir o) v (ds o) (metadata o), None).

Definition WithDatastore (v : Datastore) : Option := fun o =>
  (mkOptions (httpPublisherListenAddr o) (topic o) (id o) (identity o)
     (providerAddrs o) (localPublisherDir o) (adEntriesChunkSize o) (Some v)
     (metadata o), None).

Definition WithMetadata (v : Metadata) : Option := fun o =>
  (mkOptions (httpPublisherListenAddr o) (topic o) (id o) (identity o)
     (providerAddrs o) (localPublisherDir o) (adEntriesChunkSize o) (ds o)
     (fst (md_MarshalBinary v)), snd (md_MarshalBinary v)).

Section Construction.

Variable L : Libs.

(** [WithIdentity]: the peer ID is derived first; when that fails the
    identity is left as it was. *)
Definition WithIdentity (v : PrivKey) : Option := fun o =>
  match peer_IDFromPrivateKey L v with
  | inl err =>
      (mkOptions (httpPublisherListenAddr o) (topic o) (mkPeerID "") (identity o)
         (providerAddrs o) (localPublisherDir o) (adEntriesChunkSize o) (ds o)
         (metadata o), Some err)
  | inr pid =>
      (mkOptions (httpPublisherListenAddr o) (topic o) pid (Some v)
         (providerAddrs o) (localPublisherDir o) (adEntriesChunkSize o) (ds o)
         (metadata o), None)
  end.

(** The [for _, apply := range o] loop of [newOptions]. *)
Fixpoint apply_options (o : list Option) (opts : options) : error + options :=
  match o with
  | [] => inr opts
  | apply :: o' =>
      match apply opts with
      | (_, Some err) => inl err
      | (opts', None) => apply_options o' opts'
      end
  end.

(** The defaults that [newOptions] starts from. *)
Definition default_options : options :=
  mkOptions "0.0.0.0:40080" "/indexer/ingest/mainnet" (mkPeerID "") None None
    "" (Z.shiftl 16 10) None None.

(** The checks and the fall-backs that [newOptions] runs after the loop. *)
Definition finish_options (opts : options) : error + options :=
  match metadata opts with
  | None => inl (ErrorString "metadata must be set")
  | Some _ =>
      match providerAddrs opts with
      | None => inl (ErrorString "at least one provider address must be set")
      | Some _ =>
          let with_identity : error + options :=
            match identity opts with
            | Some _ => inr opts
            | None =>
                match GenerateEd25519Key L with
                | inl err => inl err
                | inr key =>
                    match peer_IDFromPrivateKey L key with
                    | inl err => inl err
                    | inr pid =>
                        inr (mkOptions (httpPublisherListenAddr opts) (topic opts)
                               pid (Some key) (providerAddrs opts)
                               (localPublisherDir opts) (adEntriesChunkSize opts)
                               (ds opts) (metadata opts))
                    end
                end
            end in
          match with_identity with
          | inl err => inl err
          | inr opts =>
              match ds opts with
              | Some _ => inr opts
              | None =>
                  inr (mkOptions (httpPublisherListenAddr opts) (topic opts)
                         (id opts) (identity opts) (providerAddrs opts)
                         (localPublisherDir opts) (adEntriesChunkSize opts)
                         (Some MapDatastore) (metadata opts))
              end
          end
      end
  end.

Definition newOptions (o : list Option) : error + options :=
  match apply_options o default_options with
  | inl err => inl err
  | inr opts => finish_options opts
  end.

(** [New]: neither [newDsPublisher] nor [newHttpPublisher] can fail. *)
Definition New (o : list Option) : error + Herald :=
  match newOptions o with
  | inl err => inl err
  | inr opts => inr (mkHerald opts)
  end.

End Construction.

(** ** Reading the chain back *)

(** The consumer's side, as the specification words it: a block is fetched
    under the key of its CID and decoded; the entry chunks of an
    advertisement are walked from its [entries] link along the [next]
    links. *)
Section Reader.

Variable L : Libs.

Definition loadNode (w : World) (c : Cid) : option Node :=
  match kv w !! dsKey L c with
  | Some bs => ls_decode L bs
  | None => None
  end.

Definition loadAdvertisement (w : World) (c : Cid) : option Advertisement :=
  match loadNode w c with
  | Some (NodeAdvertisement a) => Some a
  | _ => None
  end.

Definition loadEntryChunk (w : World) (c : Cid) : option EntryChunk :=
  match loadNode w c with
  | Some (NodeEntryChunk ch) => Some ch
  | _ => None
  end.

(** The chunks met from [l] on, head chunk first.  The walk stops at a
    nil link and gives up when the fuel runs out or a block is missing. *)
Fixpoint walkChunks (fuel : nat) (w : World) (l : Link) : option (list EntryChunk) :=
  match l with
  | None => Some []
  | Some c =>
      match fuel with
      | O => None
      | S fuel' =>
          match loadEntryChunk w c with
          | None => None
          | Some ch =>
              match walkChunks fuel' w (chunk_Next ch) with
              | None => None
              | Some rest => Some (ch :: rest)
              end
          end
      end
  end.


End Reader.

(** ** The vocabulary of the properties *)

(** The next datastore call is not going to fail. *)
Definition available (w : World) : bool :=
  match faults w with
  | Some _ :: _ => false
  | _ => true
  end.

(** The previous link that [generateAdvertisement] derives from the head. *)
Definition previousID_of (hd : Cid) : Link :=
  if Cid_Equals Undef hd then None else Some hd.

(** The calls of the [Publisher] interface that write. *)
Inductive call : Type :=
| CallPublish (catalog : Catalog)
| CallRetract (catalogID : CatalogID).

Definition run_call (L : Libs) (h : Herald) (c : call) : M Cid :=
  match c with
  | CallPublish catalog => Publish L h catalog
  | CallRetract catalogID => Retract L h catalogID
  end.

(** The part of a call that runs before [generateAdvertisement]: the entry
    link that the advertisement is going to carry. *)
Definition call_entries (L : Libs) (h : Herald) (c : call) : M Link :=
  match c with
  | CallPublish catalog => generateEntries L h catalog
  | CallRetract _ => ret (NoEntries L)
  end.

Definition call_ID (c : call) : CatalogID :=
  match c with
  | CallPublish catalog => catalog_ID catalog
  | CallRetract catalogID => catalogID
  end.

Definition call_isRm (c : call) : bool :=
  match c with
  | CallPublish _ => false
  | CallRetract _ => true
  end.

(** The results of a sequence of calls made one after the other, which is
    the order in which they take the writer lock, and the CIDs of those
    that succeeded. *)
Fixpoint run_calls (L : Libs) (h : Herald) (cs : list call) (w : World)
  : list (error + Cid) * World :=
  match cs with
  | [] => ([], w)
  | c :: cs' =>
      let '(r, w1) := run_call L h c w in
      let '(rs, w2) := run_calls L h cs' w1 in
      (r :: rs, w2)
  end.

Fixpoint returned (rs : list (error + Cid)) : list Cid :=
  match rs with
  | [] => []
  | inr c :: rs' => c :: returned rs'
  | inl _ :: rs' => returned rs'
  end.

(** The link to the CID returned just before the [i]-th one. *)
Definition previous_of (cs : list Cid) (i : nat) : Link :=
  match i with
  | O => None
  | S j => cs !! j
  end.

(** The number of entries at which [generateEntries] cuts a chunk: the
    configured size, and one when the configured size is below one. *)
Definition chunkLimit (h : Herald) : nat :=
  Z.to_nat (Z.max 1 (adEntriesChunkSize (herald_options h))).

(** The entry lists that the loop of [generateEntries] emits, newest chunk
    first: [n] is the number of entries at which a chunk is cut, [ms] what
    the iterator still yields, [mhs] the buffer and [emitted] the chunks cut
    so far. *)
Fixpoint chunk_lists (n : nat) (ms : list Multihash) (mhs : list Multihash)
    (emitted : list (list Multihash)) : list (list Multihash) :=
  match ms with
  | [] => match mhs with [] => emitted | _ :: _ => mhs :: emitted end
  | mh :: ms' =>
      if (n <=? length (mhs ++ [mh]))%nat
      then chunk_lists n ms' [] ((mhs ++ [mh]) :: emitted)
      else chunk_lists n ms' (mhs ++ [mh]) emitted
  end.

Section Vocabulary.

Variable L : Libs.

(** A block is held when its bytes sit under the key of their own link. *)
Definition holds (m : gmap string (list byte)) (bs : list byte) : Prop :=
  m !! dsKey L (BuildLink L bs) = Some bs.

(** [grows m m']: [m'] comes from [m] by storing blocks under their links. *)
Inductive grows (m : gmap string (list byte)) : gmap string (list byte) -> Prop :=
| grows_refl : grows m m
| grows_put m' bs :
    grows m m' -> grows m (<[dsKey L (BuildLink L bs) := bs]> m').

(** [Chain m l chunks]: from the link [l] on, the datastore [m] holds the
    blocks of [chunks], each linked to the next. *)
Inductive Chain (m : gmap string (list byte)) : Link -> list EntryChunk -> Prop :=
| Chain_nil : Chain m None []
| Chain_cons ch bs rest :
    ls_encode L (NodeEntryChunk ch) = inr bs ->
    holds m bs ->
    Chain m (chunk_Next ch) rest ->
    Chain m (Some (BuildLink L bs)) (ch :: rest).

(** The chain invariant: the head key holds the bytes of the last CID
    returned, and under each returned CID sits the block of an
    advertisement whose previous link is the CID returned before it. *)
Definition linked (m : gmap string (list byte)) (cs : list Cid) : Prop :=
  m !! headKey = option_map Cid_Bytes (last cs) /\
  forall i c, cs !! i = Some c ->
    exists ad bs,
      ls_encode L (NodeAdvertisement ad) = inr bs /\
      c = BuildLink L bs /\
      holds m bs /\
      ad_PreviousID ad = previous_of cs i.

Variable h : Herald.

(** The step of [generateAdvertisement] that fails, in a world [w1] where
    the head has been read: signing, building the node, or storing the
    block; [ad] is the advertisement, still waiting for its signature. *)
Inductive ad_failure (w1 : World) (ad : list byte -> Advertisement)
  : error -> World -> Prop :=
| fail_Sign e :
    Advertisement_Sign L (identity (herald_options h)) (ad []) = inl e ->
    ad_failure w1 ad e w1
| fail_ToNode sig e :
    Advertisement_Sign L (identity (herald_options h)) (ad []) = inr sig ->
    Advertisement_ToNode L (ad sig) = inl e ->
    ad_failure w1 ad e w1
| fail_Store sig n e w2 :
    Advertisement_Sign L (identity (herald_options h)) (ad []) = inr sig ->
    Advertisement_ToNode L (ad sig) = inr n ->
    ls_Store L n w1 = (inl e, w2) ->
    ad_failure w1 ad e w2.

End Vocabulary.

Arguments grows_refl {L m}.

(** ** A reference instance of the libraries *)

(** A small, fully computable choice of the library functions: the "hash"
    of a block is the block itself, a CID is version byte, codec byte and
    digest, and the codec is a self-delimiting byte format.  The instance
    shows that the assumptions made about the libraries can be met
    together, and concrete runs of the publisher are evaluated on it. *)
Module Ref.

Definition escape (bs : list byte) : list byte :=
  flat_map (fun b => [x01; b]) bs.

(** A byte string: its escaped bytes, closed by [x00]. *)
Definition enc_bytes (bs : list byte) : list byte := escape bs ++ [x00].

Fixpoint dec_bytes (inp : list byte) : option (list byte * list byte) :=
  match inp with
  | [] => None
  | t :: r0 =>
      if Byte.eqb t x00 then Some ([], r0)
      else if Byte.eqb t x01 then
        match r0 with
        | [] => None
        | b :: r =>
            match dec_bytes r with
            | Some (v, r') => Some (b :: v, r')
            | None => None
            end
        end
      else None
  end.

(** A list of byte strings: each item escaped and closed by [x02], the
    list closed by [x00]. *)
Definition enc_items (l : list (list byte)) : list byte :=
  flat_map (fun x => escape x ++ [x02]) l ++ [x00].

Fixpoint dec_items (cur : list byte) (inp : list byte)
  : option (list (list byte) * list byte) :=
  match inp with
  | [] => None
  | t :: r0 =>
      if Byte.eqb t x00 then Some ([], r0)
      else if Byte.eqb t x02 then
        match dec_items [] r0 with
        | Some (l, r') => Some (cur :: l, r')
        | None => None
        end
      else if Byte.eqb t x01 then
        match r0 with
        | [] => None
        | b :: r => dec_items (cur ++ [b]) r
        end
      else None
  end.

Definition enc_link (l : Link) : list byte :=
  match l with
  | None => [x00]
  | Some c => x01 :: enc_bytes (cid_str c)
  end.

Definition dec_link (inp : list byte) : option (Link * list byte) :=
  match inp with
  | [] => None
  | t :: r =>
      if Byte.eqb t x00 then Some (None, r)
      else if Byte.eqb t x01 then
        match dec_bytes r with
        | Some (v, r') => Some (Some (mkCid v), r')
        | None => None
        end
      else None
  end.

Definition enc_bool (b : bool) : list byte := if b then [x01] else [x00].

Definition dec_bool (inp : list byte) : option (bool * list byte) :=
  match inp with
  | [] => None
  | t :: r =>
      if Byte.eqb t x00 then Some (false, r)
      else if Byte.eqb t x01 then Some (true, r)
      else None
  end.

Definition enc_chunk (c : EntryChunk) : list byte :=
  enc_items (chunk_Entries c) ++ enc_link (chunk_Next c).

Definition dec_chunk (inp : list byte) : option EntryChunk :=
  match dec_items [] inp with
  | Some (es, r1) =>
      match dec_link r1 with
      | Some (nx, []) => Some (mkEntryChunk es nx)
      | _ => None
      end
  | None => None
  end.

Definition enc_ad (a : Advertisement) : list byte :=
  enc_link (ad_PreviousID a)
  ++ enc_bytes (list_byte_of_string (ad_Provider a))
  ++ enc_items (map list_byte_of_string (ad_Addresses a))
  ++ enc_link (ad_Entries a)
  ++ enc_bytes (ad_ContextID a)
  ++ enc_bytes (ad_Metadata a)
  ++ enc_bool (ad_IsRm a)
  ++ enc_bytes (ad_Signature a).

Definition dec_ad (inp : list byte) : option Advertisement :=
  match dec_link inp with
  | Some (prev, r1) =>
  match dec_bytes r1 with
  | Some (prov, r2) =>
  match dec_items [] r2 with
  | Some (addrs, r3) =>
  match dec_link r3 with
  | Some (ents, r4) =>
  match dec_bytes r4 with
  | Some (ctx, r5) =>
  match dec_bytes r5 with
  | Some (md, r6) =>
  match dec_bool r6 with
  | Some (rm, r7) =>
  match dec_bytes r7 with
  | Some (sig, []) =>
      Some (mkAdvertisement prev (string_of_list_byte prov)
              (map string_of_list_byte addrs) ents ctx md rm sig)
  | _ => None
  end
  | None => None end
  | None => None end
  | None => None end
  | None => None end
  | None => None end
  | None => None end
  | None => None end.

Definition encode (n : Node) : error + list byte :=
  match n with
  | NodeEntryChunk c => inr (x0a :: enc_chunk c)
  | NodeAdvertisement a => inr (x0b :: enc_ad a)
  end.

Definition decode (inp : list byte) : option Node :=
  match inp with
  | [] => None
  | t :: r =>
      if Byte.eqb t x0a then option_map NodeEntryChunk (dec_chunk r)
      else if Byte.eqb t x0b then option_map NodeAdvertisement (dec_ad r)
      else None
  end.

(** CIDs: version 1, one codec byte, the digest. *)
Definition build_link (bs : list byte) : Cid := mkCid (x01 :: x29 :: bs).

Definition cid_from_bytes (bs : list byte) : Cid * option error :=
  match bs with
  | t :: _ :: _ =>
      if Byte.eqb t x01 then (mkCid bs, None)
      else (Undef, Some (ErrorString "invalid cid: expected 1 as the cid version number"))
  | _ => (Undef, Some (ErrorString "invalid cid: too short"))
  end.

Definition cid_string (c : Cid) : string :=
  String "b" (string_of_list_byte (cid_str c)).

Definition cid_decode (s : string) : error + Cid :=
  match s with
  | String "b" rest =>
      match cid_from_bytes (list_byte_of_string rest) with
      | (c, None) => inr c
      | (_, Some e) => inl e
      end
  | _ => inl (ErrorString "invalid cid: cid too short")
  end.

Definition cid_codec (c : Cid) : Z :=
  match cid_str c with
  | _ :: t :: _ => if Byte.eqb t x71 then DagCBOR else if Byte.eqb t x29 then DagJSON else 85
  | _ => 0
  end.

Definition sign (k : option PrivKey) (a : Advertisement) : error + list byte :=
  match k with
  | None => inl (ErrorString "nil private key")
  | Some k => inr (key_raw k ++ ad_ContextID a)
  end.

Definition sign_head (c : Cid) (t : string) (k : option PrivKey) : error + list byte :=
  match k with
  | None => inl (ErrorString "nil private key")
  | Some k => inr (key_raw k ++ cid_str c)
  end.

Definition encode_head (s : SignedHead) : error + list byte :=
  inr (enc_bytes (cid_str (sh_Head s))
       ++ enc_bytes (list_byte_of_string (sh_Topic s))
       ++ enc_bytes (sh_Sig s)).

Definition libs : Libs :=
  mkLibs cid_string cid_decode cid_from_bytes cid_codec
    (mkCid [x01; x55])
    sign (fun _ => None)
    encode decode build_link
    sign_head encode_head
    (fun k => inr (mkPeerID (string_of_list_byte (key_raw k))))
    (inr (mkPrivKey [x2a])).

(** A configured publisher and a few inputs. *)
Definition opts (chunkSize : Z) : options :=
  mkOptions "0.0.0.0:40080" "/indexer/ingest/mainnet" (mkPeerID "peer")
    (Some (mkPrivKey [x07])) (Some ["/ip4/127.0.0.1/tcp/40080"]) ""
    chunkSize (Some MapDatastore) (Some [x01]).

Definition herald (chunkSize : Z) : Herald := mkHerald (opts chunkSize).

Definition fresh : World := mkWorld ∅ [].

Definition h1 : Multihash := [x11].
Definition h2 : Multihash := [x12].
Definition h3 : Multihash := [x13].
Definition h5 : Multihash := [x15].

Definition catalog (name : list byte) (mhs : list Multihash) : Catalog :=
  mkCatalog name (map inr mhs).

End Ref.

(** ** Concrete runs on the reference instance *)

Module Runs.

Import Ref.

(** Scenario 1 to 4 of the specification: two catalogs published, the first
    one retracted, with chunks of four. *)
Definition calls : list call :=
  [CallPublish (catalog [x41] [h1; h2; h3]);
   CallPublish (catalog [x42] [h5]);
   CallRetract [x41]].


(** What a run returned, [d] when it failed. *)
Definition result_or {A} (d : A) (r : error + A) : A :=
  match r with inr a => a | inl _ => d end.

Definition succeeded {A} (r : error + A) : bool :=
  match r with inr _ => true | inl _ => false end.

Definition cid_of (r : error + Cid) : Cid := result_or Undef r.
Definition link_of (r : error + Link) : Link := result_or None r.

Definition published : (error + Cid) * World :=
  run_call libs (herald 4) (CallPublish (catalog [x41] [h1; h2; h3])) fresh.




(** A herald without a private key: signing fails. *)
Definition keyless : Herald :=
  mkHerald (mkOptions "0.0.0.0:40080" "/indexer/ingest/mainnet" (mkPeerID "peer")
              None (Some ["/ip4/127.0.0.1/tcp/40080"]) "" 4 (Some MapDatastore)
              (Some [x01])).

(** A datastore whose head entry is not a CID. *)
Definition corrupt : World := mkWorld (<[headKey := [xff]]> ∅) [].

(** The request for the advertisement that [published] stored. *)
Definition content_request : Request :=
  mkRequest "GET" (String "/" (cid_string (cid_of (fst published)))) "".

End Runs.

(** ** The storage openers of the link system *)

Section Openers.

Variable L : Libs.

(** [dsKey] asserts that the link is a [cidlink.Link]; the assertion panics
    on a nil link. *)
Definition dsKey_of_Link (lnk : Link) : error + string :=
  match lnk with
  | Some c => inr (dsKey L c)
  | None => inl (Panic "interface conversion: interface is nil, not cidlink.Link")
  end.

(** [storageReadOpener]: the bytes of the reader it returns. *)
Definition storageReadOpener (lnk : Link) : M (list byte) :=
  do key <- lift (dsKey_of_Link lnk);
  ds_Get key.

(** The committer that [storageWriteOpener] returns, run on the bytes [bs]
    that were written to the buffer. *)
Definition storageWriteCommit (bs : list byte) (lnk : Link) : M unit :=
  do key <- lift (dsKey_of_Link lnk);
  ds_Put key bs.



End Openers.

(** ** Option lists made of the setters of the package *)

(** A call of one of the [With...] functions of [options.go]. *)
Inductive setter : Type :=
| SetHttpPublisherListenAddr (v : string)
| SetTopic (v : string)
| SetIdentity (v : PrivKey)
| SetProviderAddress (a : list Multiaddr)
| SetLocalPublisherDir (v : string)
| SetAdEntriesChunkSize (v : Z)
| SetDatastore (v : Datastore)
| SetMetadata (v : Metadata).

Definition setter_Option (L : Libs) (s : setter) : Option :=
  match s with
  | SetHttpPublisherListenAddr v => WithHttpPublisherListenAddr v
  | SetTopic v => WithTopic v
  | SetIdentity v => WithIdentity L v
  | SetProviderAddress a => WithProviderAddress a
  | SetLocalPublisherDir v => WithLocalPublisherDir v
  | SetAdEntriesChunkSize v => WithAdEntriesChunkSize v
  | SetDatastore v => WithDatastore v
  | SetMetadata v => WithMetadata v
  end.

(** The identity and the peer ID of the options belong together: the ID is
    the one that the library derives from the key. *)
Definition identity_matches (L : Libs) (o : options) : Prop :=
  forall key, identity o = Some key -> peer_IDFromPrivateKey L key = inr (id o).

(** The value that the last setter of one kind gave, [d] when the list has
    none of that kind; [pick] tells the kind and the value. *)
Definition last_set {A} (pick : setter -> option A) (ss : list setter) (d : A) : A :=
  default d (last (omap pick ss)).

Definition pick_listenAddr (s : setter) : option string :=
  match s with SetHttpPublisherListenAddr v => Some v | _ => None end.

Definition pick_topic (s : setter) : option string :=
  match s with SetTopic v => Some v | _ => None end.

Definition pick_chunkSize (s : setter) : option Z :=
  match s with SetAdEntriesChunkSize v => Some v | _ => None end.

Definition pick_providerAddrs (s : setter) : option (option (list string)) :=
  match s with SetProviderAddress a => Some (Some (map ma_String a)) | _ => None end.

Definition pick_metadata (s : setter) : option (option (list byte)) :=
  match s with SetMetadata v => Some (fst (md_MarshalBinary v)) | _ => None end.

Definition pick_datastore (s : setter) : option Datastore :=
  match s with SetDatastore v => Some v | _ => None end.

(** ** Further runs on the reference instance *)

Module Scenarios.

Import Ref Runs.






(** A catalog whose iterator fails after one multihash. *)
Definition iterator_broke : error := ErrorString "iterator broke".

Definition broken : Catalog := mkCatalog [x43] [inr h1; inl iterator_broke].

(** A failing Publish between two calls that succeed, and alone. *)
Definition mixed_calls : list call :=
  [CallPublish (catalog [x41] [h1; h2; h3]); CallPublish broken; CallRetract [x41]].

Definition mixed_run : list (error + Cid) * World :=
  run_calls libs (herald 4) mixed_calls fresh.

Definition failed_run : list (error + Cid) * World :=
  run_calls libs (herald 4) [CallPublish broken] fresh.

(** The datastore of [published] when its third operation to come fails:
    for a Retract these are the read of the head, the write of the block
    and the write of the head. *)
Definition flaky : World :=
  mkWorld (kv (snd published)) [None; None; Some "disk full"].

Definition flaky_head : (error + Cid) * World := GetHead libs flaky.

Definition flaky_ad : Advertisement :=
  newAdvertisement (herald 4) (previousID_of (cid_of (fst flaky_head))) [x41]
    (NoEntries libs) true [x07; x41].

Definition flaky_store : (error + Cid) * World :=
  ls_Store libs (NodeAdvertisement flaky_ad) (snd flaky_head).

Definition head_request : Request := mkRequest "GET" "/head" "".

(** The head message for the CID that [published] returned. *)
Definition published_head : list byte :=
  result_or []
    (encode_head
       (mkSignedHead (cid_of (fst published)) "/indexer/ingest/mainnet"
          (result_or []
             (sign_head (cid_of (fst published)) "/indexer/ingest/mainnet"
                (Some (mkPrivKey [x07])))))).

(** One entry chunk stored on the fresh datastore. *)
Definition one_chunk : Node := NodeEntryChunk (mkEntryChunk [h1] None).

Definition stored : (error + Cid) * World := ls_Store libs one_chunk fresh.

(** Three multihashes with chunks of four. *)
Definition three : (error + Link) * World :=
  generateEntries libs (herald 4) (catalog [x41] [h1; h2; h3]) fresh.

(** Option lists. *)
Definition some_metadata : Metadata := mkMetadata (Some [x01], None).

Definition no_metadata : Metadata :=
  mkMetadata (None, Some (ErrorString "marshal failed")).

Definition an_address : Multiaddr := mkMultiaddr "/ip4/127.0.0.1/tcp/40080".

Definition minimal : list Option :=
  [WithMetadata some_metadata; WithProviderAddress [an_address]].

Definition with_identity : list setter :=
  [SetMetadata some_metadata; SetProviderAddress [an_address];
   SetIdentity (mkPrivKey [x07])].

Definition without_address : list Option :=
  [WithMetadata some_metadata; WithIdentity libs (mkPrivKey [x07])].

Definition repeated : list setter :=
  [SetTopic "/one"; SetMetadata some_metadata; SetAdEntriesChunkSize 8;
   SetProviderAddress []; SetTopic "/two"; SetProviderAddress [an_address];
   SetAdEntriesChunkSize 2].

End Scenarios.


(** * Properties *)

(** ** The effect monad *)

Lemma bind_inr {A B} (m : M A) (k : A -> M B) w b w' :
  bind m k w = (inr b, w') ->
  exists a w1, m w = (inr a, w1) /\ k a w1 = (inr b, w').
Proof.
  unfold bind. destruct (m w) as [[e | a] w1]; intros H; [discriminate |].
  exists a, w1. split; [reflexivity | exact H].
Qed.

Lemma bind_inl {A B} (m : M A) (k : A -> M B) w e w' :
  bind m k w = (inl e, w') ->
  m w = (inl e, w') \/ exists a w1, m w = (inr a, w1) /\ k a w1 = (inl e, w').
Proof.
  unfold bind. destruct (m w) as [[e1 | a] w1]; intros H.
  - left. inversion H; subst. reflexivity.
  - right. exists a, w1. split; [reflexivity | exact H].
Qed.

Lemma bind_step {A B} (m : M A) (k : A -> M B) w a w1 :
  m w = (inr a, w1) -> bind m k w = k a w1.
Proof. unfold bind. intros ->. reflexivity. Qed.

Lemma bind_fail {A B} (m : M A) (k : A -> M B) w e w1 :
  m w = (inl e, w1) -> bind m k w = (inl e, w1).
Proof. unfold bind. intros ->. reflexivity. Qed.

(** ** The datastore *)

Lemma next_fault_kv w : kv (snd (next_fault w)) = kv w.
Proof. unfold next_fault. destruct (faults w); reflexivity. Qed.

Lemma next_fault_available w :
  available w = true -> fst (next_fault w) = None.
Proof.
  unfold available, next_fault. destruct (faults w) as [| [msg |] fs]; simpl;
    intros H; try reflexivity; discriminate.
Qed.

Lemma ds_Put_inr key value w u w' :
  ds_Put key value w = (inr u, w') -> kv w' = <[key := value]> (kv w).
Proof.
  unfold ds_Put. pose proof (next_fault_kv w) as Hkv.
  destruct (next_fault w) as [[msg |] w1]; simpl in *; intros H; inversion H; subst.
  simpl. rewrite Hkv. reflexivity.
Qed.

Lemma ds_Put_inl key value w e w' :
  ds_Put key value w = (inl e, w') -> kv w' = kv w.
Proof.
  unfold ds_Put. pose proof (next_fault_kv w) as Hkv.
  destruct (next_fault w) as [[msg |] w1]; simpl in *; intros H; inversion H; subst.
  exact Hkv.
Qed.

Lemma ds_Get_kv key w r w' : ds_Get key w = (r, w') -> kv w' = kv w.
Proof.
  unfold ds_Get. pose proof (next_fault_kv w) as Hkv.
  destruct (next_fault w) as [[msg |] w1]; simpl in *.
  - intros H; inversion H; subst. exact Hkv.
  - destruct (kv w1 !! key); intros H; inversion H; subst; exact Hkv.
Qed.

Lemma ds_Get_inr key w v w' :
  ds_Get key w = (inr v, w') -> kv w !! key = Some v.
Proof.
  unfold ds_Get. pose proof (next_fault_kv w) as Hkv.
  destruct (next_fault w) as [[msg |] w1]; simpl in *; [discriminate |].
  rewrite Hkv. destruct (kv w !! key); intros H; inversion H; subst. reflexivity.
Qed.

Lemma ds_Get_NotFound key w w' :
  ds_Get key w = (inl ErrNotFound, w') -> kv w !! key = None.
Proof.
  unfold ds_Get. pose proof (next_fault_kv w) as Hkv.
  destruct (next_fault w) as [[msg |] w1]; simpl in *; [discriminate |].
  rewrite Hkv. destruct (kv w !! key); intros H; inversion H; subst. reflexivity.
Qed.

Lemma ds_Get_inl key w e w' :
  ds_Get key w = (inl e, w') ->
  (e = ErrNotFound /\ kv w !! key = None) \/ exists msg, e = ErrorString msg.
Proof.
  unfold ds_Get. pose proof (next_fault_kv w) as Hkv.
  destruct (next_fault w) as [[msg |] w1]; simpl in *.
  - intros H; inversion H; subst. right. eauto.
  - rewrite Hkv. destruct (kv w !! key); intros H; inversion H; subst. left. auto.
Qed.

Lemma ds_Get_available key w :
  available w = true ->
  fst (ds_Get key w) =
    match kv w !! key with Some v => inr v | None => inl ErrNotFound end.
Proof.
  intros Hav. unfold ds_Get. pose proof (next_fault_kv w) as Hkv.
  pose proof (next_fault_available w Hav) as Hf.
  destruct (next_fault w) as [f w1]; simpl in *; subst f.
  rewrite Hkv. destruct (kv w !! key); reflexivity.
Qed.

(** ** Content-addressed writes *)

Section Blocks.

Variable L : Libs.

Lemma grows_trans m1 m2 m3 : grows L m1 m2 -> grows L m2 m3 -> grows L m1 m3.
Proof.
  intros H12 H23. induction H23 as [| m3 bs _ IH].
  - exact H12.
  - apply grows_put. exact IH.
Qed.

Lemma grows_one m bs : grows L m (<[dsKey L (BuildLink L bs) := bs]> m).
Proof. apply grows_put, grows_refl. Qed.

Lemma dsKey_inj c1 c2 : dsKey L c1 = dsKey L c2 -> Cid_String L c1 = Cid_String L c2.
Proof. unfold dsKey, NewKey. intros H. inversion H. reflexivity. Qed.

(** No CID is spelled like the head key. *)
Hypothesis Cid_String_not_head : forall c, Cid_String L c <> "head".

Lemma dsKey_not_headKey c : dsKey L c <> headKey.
Proof.
  unfold dsKey, headKey, NewKey. intros H. inversion H as [H1].
  exact (Cid_String_not_head c H1).
Qed.

Lemma grows_head m m' : grows L m m' -> m' !! headKey = m !! headKey.
Proof.
  induction 1 as [| m' bs _ IH]; [reflexivity |].
  rewrite lookup_insert_ne; [exact IH | apply dsKey_not_headKey].
Qed.

(** The links of two different blocks have different string forms: the
    hash does not collide and [String] is one-to-one. *)
Hypothesis BuildLink_inj : forall b1 b2,
  Cid_String L (BuildLink L b1) = Cid_String L (BuildLink L b2) -> b1 = b2.

Lemma holds_insert m bs bs' :
  holds L m bs -> holds L (<[dsKey L (BuildLink L bs') := bs']> m) bs.
Proof.
  unfold holds. intros H.
  destruct (decide (dsKey L (BuildLink L bs') = dsKey L (BuildLink L bs))) as [Heq | Hne].
  - rewrite Heq, lookup_insert_eq.
    apply dsKey_inj, BuildLink_inj in Heq. congruence.
  - rewrite lookup_insert_ne; assumption.
Qed.

Lemma grows_holds m m' bs : grows L m m' -> holds L m bs -> holds L m' bs.
Proof.
  induction 1 as [| m' bs' _ IH]; intros H; [exact H |].
  apply holds_insert, IH, H.
Qed.

Lemma holds_head m bs v : holds L m bs -> holds L (<[headKey := v]> m) bs.
Proof.
  unfold holds. intros H. rewrite lookup_insert_ne; [exact H |].
  intros Heq. symmetry in Heq. exact (dsKey_not_headKey _ Heq).
Qed.

End Blocks.

(** ** What the publisher's steps do to the datastore *)

Section Steps.

Variable L : Libs.
Variable h : Herald.

Lemma lift_inr {A} (r : error + A) w a w' :
  lift r w = (inr a, w') -> r = inr a /\ w' = w.
Proof. unfold lift. intros H; inversion H; subst. auto. Qed.

Lemma lift_inl {A} (r : error + A) w e w' :
  lift r w = (@inl error A e, w') -> r = inl e /\ w' = w.
Proof. unfold lift. intros H; inversion H; subst. auto. Qed.

Lemma ls_Store_inr n w c w' :
  ls_Store L n w = (inr c, w') ->
  exists bs, ls_encode L n = inr bs /\ c = BuildLink L bs /\
             kv w' = <[dsKey L c := bs]> (kv w).
Proof.
  unfold ls_Store. intros H.
  apply bind_inr in H as (bs & w1 & H1 & H).
  apply lift_inr in H1 as [Henc ->].
  apply bind_inr in H as (u & w2 & H2 & H).
  unfold ret in H. inversion H; subst.
  exists bs. repeat split; [exact Henc |].
  exact (ds_Put_inr _ _ _ _ _ H2).
Qed.

Lemma ls_Store_inl n w e w' :
  ls_Store L n w = (inl e, w') -> kv w' = kv w.
Proof.
  unfold ls_Store. intros H.
  apply bind_inl in H as [H | (bs & w1 & H1 & H)].
  - apply lift_inl in H as [_ ->]. reflexivity.
  - apply lift_inr in H1 as [_ ->].
    apply bind_inl in H as [H | (u & w2 & _ & H)].
    + exact (ds_Put_inl _ _ _ _ _ H).
    + unfold ret in H. discriminate.
Qed.

Lemma ls_Store_grows n w r w' :
  ls_Store L n w = (r, w') -> grows L (kv w) (kv w').
Proof.
  destruct r as [e | c]; intros H.
  - rewrite (ls_Store_inl _ _ _ _ H). apply grows_refl.
  - apply ls_Store_inr in H as (bs & _ & -> & ->). apply grows_one.
Qed.

Lemma EntryChunk_ToNode_inr ch n :
  EntryChunk_ToNode L ch = inr n -> n = NodeEntryChunk ch.
Proof.
  unfold EntryChunk_ToNode. destruct (ToNode_error L _); intros H; inversion H.
  reflexivity.
Qed.

Lemma Advertisement_ToNode_inr a n :
  Advertisement_ToNode L a = inr n -> n = NodeAdvertisement a.
Proof.
  unfold Advertisement_ToNode. destruct (ToNode_error L _); intros H; inversion H.
  reflexivity.
Qed.

Lemma generateEntriesChunk_inr next mhs w l w' :
  generateEntriesChunk L next mhs w = (inr l, w') ->
  exists bs, ls_encode L (NodeEntryChunk (mkEntryChunk mhs next)) = inr bs /\
             l = Some (BuildLink L bs) /\
             kv w' = <[dsKey L (BuildLink L bs) := bs]> (kv w).
Proof.
  unfold generateEntriesChunk. intros H.
  apply bind_inr in H as (n & w1 & H1 & H).
  apply lift_inr in H1 as [Hn ->]. apply EntryChunk_ToNode_inr in Hn. subst n.
  apply bind_inr in H as (c & w2 & H2 & H).
  unfold ret in H. inversion H; subst.
  apply ls_Store_inr in H2 as (bs & Henc & -> & Hkv).
  exists bs. auto.
Qed.

Lemma generateEntriesChunk_grows next mhs w r w' :
  generateEntriesChunk L next mhs w = (r, w') -> grows L (kv w) (kv w').
Proof.
  destruct r as [e | l]; intros H.
  - unfold generateEntriesChunk in H.
    apply bind_inl in H as [H | (n & w1 & H1 & H)].
    + apply lift_inl in H as [_ ->]. apply grows_refl.
    + apply lift_inr in H1 as [_ ->].
      apply bind_inl in H as [H | (c & w2 & _ & H)].
      * rewrite (ls_Store_inl _ _ _ _ H). apply grows_refl.
      * unfold ret in H. discriminate.
  - apply generateEntriesChunk_inr in H as (bs & _ & _ & ->). apply grows_one.
Qed.

Lemma generateEntries_loop_grows iter : forall mhs next w r w',
  generateEntries_loop L h iter mhs next w = (r, w') -> grows L (kv w) (kv w').
Proof.
  induction iter as [| [err | mh] iter IH]; intros mhs next w r w' H; simpl in H.
  - destruct (negb (length mhs =? 0)%nat).
    + exact (generateEntriesChunk_grows _ _ _ _ _ H).
    + unfold ret in H. inversion H; subst. apply grows_refl.
  - unfold fail in H. inversion H; subst. apply grows_refl.
  - destruct (Z.of_nat (length (mhs ++ [mh])) >=? adEntriesChunkSize (herald_options h)).
    + unfold bind in H.
      destruct (generateEntriesChunk L next (mhs ++ [mh]) w) as [[e | l] w1] eqn:Hc.
      * inversion H; subst. exact (generateEntriesChunk_grows _ _ _ _ _ Hc).
      * eapply grows_trans.
        -- exact (generateEntriesChunk_grows _ _ _ _ _ Hc).
        -- exact (IH _ _ _ _ _ H).
    + exact (IH _ _ _ _ _ H).
Qed.

Lemma generateEntries_grows catalog w r w' :
  generateEntries L h catalog w = (r, w') -> grows L (kv w) (kv w').
Proof.
  unfold generateEntries.
  destruct (adEntriesChunkSize (herald_options h) <? 0).
  - unfold fail. intros H; inversion H; subst. apply grows_refl.
  - apply generateEntries_loop_grows.
Qed.

Lemma GetHead_kv w r w' : GetHead L w = (r, w') -> kv w' = kv w.
Proof.
  unfold GetHead. destruct (ds_Get headKey w) as [[e | v] w1] eqn:Hg.
  - apply ds_Get_kv in Hg.
    destruct (is_ErrNotFound e); intros H; inversion H; subst; exact Hg.
  - apply ds_Get_kv in Hg.
    destruct (CidFromBytes L v). intros H; inversion H; subst; exact Hg.
Qed.

(** A successful [GetHead] returns [Undef] on an absent head and
    otherwise whatever [CidFromBytes] made of the stored bytes. *)
Lemma GetHead_inr w hd w' :
  GetHead L w = (inr hd, w') ->
  (kv w !! headKey = None /\ hd = Undef) \/
  (exists v, kv w !! headKey = Some v /\ hd = fst (CidFromBytes L v)).
Proof.
  unfold GetHead. destruct (ds_Get headKey w) as [[e | v] w1] eqn:Hg.
  - destruct e; simpl; intros H; inversion H; subst.
    left. split; [| reflexivity]. exact (ds_Get_NotFound _ _ _ Hg).
  - apply ds_Get_inr in Hg.
    destruct (CidFromBytes L v) as [c oe] eqn:Hc. intros H; inversion H; subst.
    right. exists v. rewrite Hc. auto.
Qed.

Lemma generateAdvertisement_inr catalogID entries isRm w c w' :
  generateAdvertisement L h catalogID entries isRm w = (inr c, w') ->
  exists hd w1 sig bs,
    GetHead L w = (inr hd, w1) /\
    Advertisement_Sign L (identity (herald_options h))
      (newAdvertisement h (previousID_of hd) catalogID entries isRm []) = inr sig /\
    ls_encode L (NodeAdvertisement
      (newAdvertisement h (previousID_of hd) catalogID entries isRm sig)) = inr bs /\
    c = BuildLink L bs /\
    kv w' = <[headKey := Cid_Bytes c]> (<[dsKey L c := bs]> (kv w)).
Proof.
  unfold generateAdvertisement. intros H.
  apply bind_inr in H as (hd & w1 & Hh & H).
  apply bind_inr in H as (sig & w2 & Hs & H).
  apply lift_inr in Hs as [Hs ->].
  apply bind_inr in H as (n & w3 & Hn & H).
  apply lift_inr in Hn as [Hn ->]. apply Advertisement_ToNode_inr in Hn. subst n.
  apply bind_inr in H as (c' & w4 & Hst & H).
  apply bind_inr in H as (u & w5 & Hp & H).
  unfold ret in H. inversion H; subst.
  apply ls_Store_inr in Hst as (bs & Henc & -> & Hkv).
  exists hd, w1, sig, bs. repeat split; try assumption.
  rewrite (ds_Put_inr _ _ _ _ _ Hp), Hkv, (GetHead_kv _ _ _ Hh). reflexivity.
Qed.

Lemma generateAdvertisement_inl catalogID entries isRm w e w' :
  generateAdvertisement L h catalogID entries isRm w = (inl e, w') ->
  grows L (kv w) (kv w').
Proof.
  unfold generateAdvertisement. intros H.
  apply bind_inl in H as [H | (hd & w1 & Hh & H)].
  { rewrite (GetHead_kv _ _ _ H). apply grows_refl. }
  apply GetHead_kv in Hh. rewrite <- Hh.
  apply bind_inl in H as [H | (sig & w2 & Hs & H)].
  { apply lift_inl in H as [_ ->]. apply grows_refl. }
  apply lift_inr in Hs as [_ ->].
  apply bind_inl in H as [H | (n & w3 & Hn & H)].
  { apply lift_inl in H as [_ ->]. apply grows_refl. }
  apply lift_inr in Hn as [_ ->].
  apply bind_inl in H as [H | (c & w4 & Hst & H)].
  { exact (ls_Store_grows _ _ _ _ H). }
  apply bind_inl in H as [H | (u & w5 & _ & H)].
  - rewrite (ds_Put_inl _ _ _ _ _ H). exact (ls_Store_grows _ _ _ _ Hst).
  - unfold ret in H. discriminate.
Qed.

End Steps.

(** ** Calls of the [Publisher] interface that write *)

Lemma run_call_unfold L h c :
  run_call L h c =
  bind (call_entries L h c)
       (fun entries => generateAdvertisement L h (call_ID c) entries (call_isRm c)).
Proof. destruct c; reflexivity. Qed.

Lemma call_entries_grows L h c w r w' :
  call_entries L h c w = (r, w') -> grows L (kv w) (kv w').
Proof.
  destruct c as [catalog | catalogID]; simpl.
  - apply generateEntries_grows.
  - unfold ret. intros H; inversion H; subst. apply grows_refl.
Qed.

(** A failed call has only stored blocks, if anything. *)
Lemma run_call_inl_grows L h c w e w' :
  run_call L h c w = (inl e, w') -> grows L (kv w) (kv w').
Proof.
  rewrite run_call_unfold. intros H.
  apply bind_inl in H as [H | (entries & w1 & H1 & H)].
  - exact (call_entries_grows _ _ _ _ _ _ H).
  - eapply grows_trans.
    + exact (call_entries_grows _ _ _ _ _ _ H1).
    + exact (generateAdvertisement_inl _ _ _ _ _ _ _ _ H).
Qed.

(** A successful call: the blocks of its entries, then the advertisement
    block under its link, then the head. *)
Lemma run_call_inr L h c w cid w' :
  run_call L h c w = (inr cid, w') ->
  exists entries w0 hd w1 sig bs,
    call_entries L h c w = (inr entries, w0) /\
    GetHead L w0 = (inr hd, w1) /\
    ls_encode L (NodeAdvertisement
      (newAdvertisement h (previousID_of hd) (call_ID c) entries (call_isRm c) sig))
      = inr bs /\
    cid = BuildLink L bs /\
    kv w' = <[headKey := Cid_Bytes cid]> (<[dsKey L cid := bs]> (kv w0)).
Proof.
  rewrite run_call_unfold. intros H.
  apply bind_inr in H as (entries & w0 & H0 & H).
  apply generateAdvertisement_inr in H as (hd & w1 & sig & bs & Hh & _ & Henc & Hc & Hkv).
  exists entries, w0, hd, w1, sig, bs. auto.
Qed.

Lemma GetHead_available L w :
  available w = true ->
  fst (GetHead L w) =
    match kv w !! headKey with
    | Some v => inr (fst (CidFromBytes L v))
    | None => inr Undef
    end.
Proof.
  intros Hav. pose proof (ds_Get_available headKey w Hav) as Hg.
  unfold GetHead. destruct (ds_Get headKey w) as [r w1]. simpl in Hg. subst r.
  destruct (kv w !! headKey) as [v |]; simpl.
  - destruct (CidFromBytes L v); reflexivity.
  - reflexivity.
Qed.

(** ** The head pointer *)

Section Head.

Variable L : Libs.
Variable h : Herald.

Lemma generateAdvertisement_failure catalogID entries isRm w hd w1 e w2 :
  GetHead L w = (inr hd, w1) ->
  ad_failure L h w1 (newAdvertisement h (previousID_of hd) catalogID entries isRm) e w2 ->
  generateAdvertisement L h catalogID entries isRm w = (inl e, w2).
Proof.
  intros Hh Hf. unfold generateAdvertisement.
  rewrite (bind_step _ _ _ _ _ Hh). fold (previousID_of hd).
  destruct Hf as [e Hs | sig e Hs Hn | sig n e w2 Hs Hn Hst].
  - apply bind_fail. unfold lift. rewrite Hs. reflexivity.
  - erewrite bind_step; [| unfold lift; rewrite Hs; reflexivity].
    apply bind_fail. unfold lift. rewrite Hn. reflexivity.
  - erewrite bind_step; [| unfold lift; rewrite Hs; reflexivity].
    erewrite bind_step; [| unfold lift; rewrite Hn; reflexivity].
    apply bind_fail. exact Hst.
Qed.

Hypothesis Cid_String_not_head : forall c, Cid_String L c <> "head".

(** C7. When signing, node construction or the write of the advertisement
    block fails in a Publish or Retract call, the call returns that error
    and the datastore entry at the head key is what it was before the
    call; more generally, no call that returns an error changes the entry
    at the head key. *)
Theorem head_not_advanced_on_error :
  (forall c w entries w0 hd w1 e w2,
      call_entries L h c w = (inr entries, w0) ->
      GetHead L w0 = (inr hd, w1) ->
      ad_failure L h w1
        (newAdvertisement h (previousID_of hd) (call_ID c) entries (call_isRm c))
        e w2 ->
      run_call L h c w = (inl e, w2) /\
      kv w2 !! headKey = kv w !! headKey) /\
  (forall c w e w',
      run_call L h c w = (inl e, w') ->
      kv w' !! headKey = kv w !! headKey).
Proof.
  assert (Hany : forall c w e w',
             run_call L h c w = (inl e, w') ->
             kv w' !! headKey = kv w !! headKey).
  { intros c w e w' H.
    exact (grows_head L Cid_String_not_head _ _ (run_call_inl_grows _ _ _ _ _ _ H)). }
  split; [| exact Hany].
  intros c w entries w0 hd w1 e w2 He Hh Hf.
  assert (Hrun : run_call L h c w = (inl e, w2)).
  { rewrite run_call_unfold, (bind_step _ _ _ _ _ He).
    exact (generateAdvertisement_failure _ _ _ _ _ _ _ _ Hh Hf). }
  split; [exact Hrun | exact (Hany _ _ _ _ Hrun)].
Qed.

(** [CidFromBytes] reads the bytes of a link of the prototype back. *)
Hypothesis CidFromBytes_Bytes : forall bs,
  CidFromBytes L (Cid_Bytes (BuildLink L bs)) = (BuildLink L bs, None).

(** C2. After a successful Publish or Retract that returned [c], the head
    key holds the bytes of [c], and a GetHead that follows at once, on a
    datastore that answers, returns [c]. *)
Theorem GetHead_after_success c w cid w' :
  run_call L h c w = (inr cid, w') ->
  available w' = true ->
  kv w' !! headKey = Some (Cid_Bytes cid) /\
  fst (GetHead L w') = inr cid.
Proof.
  intros H Hav.
  apply run_call_inr in H as (entries & w0 & hd & w1 & sig & bs & _ & _ & _ & Hc & Hkv).
  assert (Hhead : kv w' !! headKey = Some (Cid_Bytes cid)).
  { rewrite Hkv. apply lookup_insert_eq. }
  split; [exact Hhead |].
  rewrite (GetHead_available L w' Hav), Hhead, Hc, CidFromBytes_Bytes.
  reflexivity.
Qed.

(** When [CidFromBytes] reports an error, the CID it returns is [Undef]. *)
Hypothesis CidFromBytes_error : forall bs c e,
  CidFromBytes L bs = (c, Some e) -> c = Undef.

(** C10. When the bytes at the head key do not parse as a CID, GetHead
    returns [Undef] and no error, which is what it returns on the same
    datastore without the head entry, and GET /head answers 204. *)
Theorem GetHead_corrupt_head w bs c e r :
  kv w !! headKey = Some bs ->
  CidFromBytes L bs = (c, Some e) ->
  available w = true ->
  req_Method r = MethodGet ->
  fst (GetHead L w) = inr Undef /\
  fst (GetHead L w) = fst (GetHead L (mkWorld (delete headKey (kv w)) (faults w))) /\
  resp_Status (fst (handleGetHead L h r w)) = StatusNoContent.
Proof.
  intros Hkv Hc Hav Hm.
  assert (Hhd : fst (GetHead L w) = inr Undef).
  { rewrite (GetHead_available L w Hav), Hkv, Hc. simpl.
    rewrite (CidFromBytes_error _ _ _ Hc). reflexivity. }
  split; [exact Hhd |]. split.
  - rewrite Hhd. rewrite GetHead_available by exact Hav. simpl.
    rewrite lookup_delete_eq. reflexivity.
  - unfold handleGetHead. rewrite Hm. simpl.
    destruct (GetHead L w) as [rh w1]. simpl in Hhd. subst rh.
    reflexivity.
Qed.

End Head.

(** ** The entry chunks *)


Section Entries.

Variable L : Libs.
Variable h : Herald.

Lemma chunkLimit_test (mhs : list Multihash) (mh : Multihash) :
  (Z.of_nat (length (mhs ++ [mh])) >=? adEntriesChunkSize (herald_options h)) =
  (chunkLimit h <=? length (mhs ++ [mh]))%nat.
Proof.
  unfold chunkLimit. rewrite length_app. simpl.
  destruct (Z.geb_spec (Z.of_nat (length mhs + 1)) (adEntriesChunkSize (herald_options h)));
    destruct (Nat.leb_spec
                (Z.to_nat (Z.max 1 (adEntriesChunkSize (herald_options h))))
                (length mhs + 1)); try reflexivity; lia.
Qed.

Hypothesis BuildLink_inj : forall b1 b2,
  Cid_String L (BuildLink L b1) = Cid_String L (BuildLink L b2) -> b1 = b2.

Lemma Chain_grows m m' l chunks :
  grows L m m' -> Chain L m l chunks -> Chain L m' l chunks.
Proof.
  intros Hg. induction 1 as [| ch bs rest Henc Hh _ IH].
  - constructor.
  - econstructor; [exact Henc | | exact IH].
    exact (grows_holds L BuildLink_inj _ _ _ Hg Hh).
Qed.

(** The loop stores the chunks that [chunk_lists] describes. *)
Lemma generateEntries_loop_Chain ms : forall mhs next w lnk w' emitted,
  generateEntries_loop L h (map inr ms) mhs next w = (inr lnk, w') ->
  Chain L (kv w) next emitted ->
  exists chunks,
    Chain L (kv w') lnk chunks /\
    map chunk_Entries chunks =
      chunk_lists (chunkLimit h) ms mhs (map chunk_Entries emitted).
Proof.
  induction ms as [| mh ms IH]; intros mhs next w lnk w' emitted H Hch.
  - simpl in H. destruct mhs as [| m0 mhs]; simpl in H.
    + unfold ret in H. inversion H; subst. exists emitted. auto.
    + apply generateEntriesChunk_inr in H as (bs & Henc & -> & Hkv).
      exists (mkEntryChunk (m0 :: mhs) next :: emitted). split; [| reflexivity].
      econstructor; [exact Henc | |].
      * unfold holds. rewrite Hkv. apply lookup_insert_eq.
      * simpl. rewrite Hkv. exact (Chain_grows _ _ _ _ (grows_one L _ _) Hch).
  - cbn [map generateEntries_loop chunk_lists] in *.
    rewrite chunkLimit_test in H.
    destruct (chunkLimit h <=? length (mhs ++ [mh]))%nat.
    + apply bind_inr in H as (next' & w1 & Hc & H).
      apply generateEntriesChunk_inr in Hc as (bs & Henc & -> & Hkv).
      apply (IH _ _ _ _ _ (mkEntryChunk (mhs ++ [mh]) next :: emitted)) in H.
      * exact H.
      * econstructor; [exact Henc | |].
        -- unfold holds. rewrite Hkv. apply lookup_insert_eq.
        -- simpl. rewrite Hkv. exact (Chain_grows _ _ _ _ (grows_one L _ _) Hch).
    + exact (IH _ _ _ _ _ _ H Hch).
Qed.

Lemma generateEntries_Chain catalog ms w lnk w' :
  catalog_Iterator catalog = map inr ms ->
  generateEntries L h catalog w = (inr lnk, w') ->
  exists chunks,
    Chain L (kv w') lnk chunks /\
    map chunk_Entries chunks = chunk_lists (chunkLimit h) ms [] [].
Proof.
  intros Hit. unfold generateEntries.
  destruct (adEntriesChunkSize (herald_options h) <? 0).
  - unfold fail. discriminate.
  - rewrite Hit. intros H.
    exact (generateEntries_loop_Chain _ _ _ _ _ _ [] H (Chain_nil L _)).
Qed.

(** The decoder reads back what the encoder wrote. *)
Hypothesis decode_encode : forall n bs,
  ls_encode L n = inr bs -> ls_decode L bs = Some n.

Lemma Chain_walk w l chunks :
  Chain L (kv w) l chunks ->
  forall fuel, (length chunks <= fuel)%nat -> walkChunks L fuel w l = Some chunks.
Proof.
  induction 1 as [| ch bs rest Henc Hh _ IH]; intros fuel Hfuel.
  - destruct fuel; reflexivity.
  - destruct fuel as [| fuel]; [simpl in Hfuel; lia |].
    simpl. unfold loadEntryChunk, loadNode. unfold holds in Hh.
    rewrite Hh, (decode_encode _ _ Henc).
    rewrite IH by (simpl in Hfuel; lia). reflexivity.
Qed.

End Entries.



Section EntryCoverage.

Variable L : Libs.
Variable h : Herald.

Hypothesis BuildLink_inj : forall b1 b2,
  Cid_String L (BuildLink L b1) = Cid_String L (BuildLink L b2) -> b1 = b2.

Hypothesis decode_encode : forall n bs,
  ls_encode L n = inr bs -> ls_decode L bs = Some n.



End EntryCoverage.

Section EmptyCatalog.

Variable L : Libs.
Variable h : Herald.

(** C4 (what the code does). On a catalog whose iterator is exhausted from
    the start, the entry builder stores nothing and returns the nil link,
    which is not the link [schema.NoEntries]; Publish then builds the
    advertisement with a nil [Entries]. *)
Theorem generateEntries_empty_catalog catalog w :
  0 <= adEntriesChunkSize (herald_options h) ->
  catalog_Iterator catalog = [] ->
  generateEntries L h catalog w = (inr None, w) /\
  (None : Link) <> NoEntries L /\
  Publish L h catalog w = generateAdvertisement L h (catalog_ID catalog) None false w.
Proof.
  intros Hsize Hit.
  assert (Hgen : generateEntries L h catalog w = (inr None, w)).
  { unfold generateEntries. rewrite Hit.
    destruct (Z.ltb_spec (adEntriesChunkSize (herald_options h)) 0); [lia |].
    reflexivity. }
  repeat split.
  - exact Hgen.
  - unfold NoEntries. discriminate.
  - unfold Publish. exact (bind_step _ _ _ _ _ Hgen).
Qed.

End EmptyCatalog.

(** ** The advertisement chain *)

Section ChainLinearity.

Variable L : Libs.
Variable h : Herald.

Hypothesis Cid_String_not_head : forall c, Cid_String L c <> "head".

Hypothesis BuildLink_inj : forall b1 b2,
  Cid_String L (BuildLink L b1) = Cid_String L (BuildLink L b2) -> b1 = b2.

Lemma linked_grows m m' cs : grows L m m' -> linked L m cs -> linked L m' cs.
Proof.
  intros Hg [Hhead Hblocks]. split.
  - rewrite (grows_head L Cid_String_not_head _ _ Hg). exact Hhead.
  - intros i c Hi. destruct (Hblocks i c Hi) as (ad & bs & Henc & Hc & Hh & Hp).
    exists ad, bs. repeat split; try assumption.
    exact (grows_holds L BuildLink_inj _ _ _ Hg Hh).
Qed.

Hypothesis CidFromBytes_Bytes : forall bs,
  CidFromBytes L (Cid_Bytes (BuildLink L bs)) = (BuildLink L bs, None).

(** The link prototype never builds the undefined CID. *)
Hypothesis BuildLink_defined : forall bs, BuildLink L bs <> Undef.

Lemma previousID_of_head w0 hd w1 cs :
  linked L (kv w0) cs -> GetHead L w0 = (inr hd, w1) -> previousID_of hd = last cs.
Proof.
  intros [Hhead Hblocks] Hg.
  apply GetHead_inr in Hg as [[Hnone ->] | (v & Hv & ->)].
  - rewrite Hnone in Hhead. destruct (last cs); [discriminate |]. reflexivity.
  - rewrite Hv in Hhead. destruct (last cs) as [cl |] eqn:Hl; [| discriminate].
    simpl in Hhead. inversion Hhead; subst v.
    rewrite last_lookup in Hl.
    destruct (Hblocks _ _ Hl) as (ad & bs & _ & -> & _ & _).
    rewrite CidFromBytes_Bytes. simpl.
    unfold previousID_of, Cid_Equals.
    rewrite bool_decide_eq_false_2; [reflexivity |].
    intros E. exact (BuildLink_defined bs (eq_sym E)).
Qed.

Lemma linked_success c w cid w' cs :
  linked L (kv w) cs ->
  run_call L h c w = (inr cid, w') ->
  linked L (kv w') (cs ++ [cid]).
Proof.
  intros Hl H.
  apply run_call_inr in H
    as (entries & w0 & hd & w1 & sig & bs & He & Hh & Henc & Hc & Hkv).
  assert (Hl0 : linked L (kv w0) cs).
  { eapply linked_grows; [exact (call_entries_grows _ _ _ _ _ _ He) | exact Hl]. }
  pose proof (previousID_of_head _ _ _ _ Hl0 Hh) as Hprev.
  destruct Hl0 as [Hhead Hblocks].
  split.
  - rewrite Hkv, lookup_insert_eq, last_snoc. reflexivity.
  - intros i c0 Hi.
    destruct (decide (i < length cs)%nat) as [Hlt | Hge].
    + rewrite lookup_app_l in Hi by exact Hlt.
      destruct (Hblocks _ _ Hi) as (ad & bs0 & Henc0 & Hc0 & Hh0 & Hp0).
      exists ad, bs0. repeat split; try assumption.
      * rewrite Hkv. apply (holds_head L Cid_String_not_head).
        rewrite Hc. apply (holds_insert L BuildLink_inj). exact Hh0.
      * rewrite Hp0. destruct i as [| j]; [reflexivity |].
        simpl. rewrite lookup_app_l by lia. reflexivity.
    + assert (i = length cs).
      { apply lookup_lt_Some in Hi. rewrite length_app in Hi. simpl in Hi. lia. }
      subst i. rewrite list_lookup_middle in Hi by reflexivity.
      inversion Hi; subst c0.
      exists (newAdvertisement h (previousID_of hd) (call_ID c) entries (call_isRm c) sig), bs.
      repeat split.
      * exact Henc.
      * exact Hc.
      * rewrite Hkv. apply (holds_head L Cid_String_not_head).
        unfold holds. rewrite <- Hc. apply lookup_insert_eq.
      * simpl. rewrite Hprev, last_lookup.
        destruct cs as [| c1 cs1]; [reflexivity |].
        simpl length. simpl Nat.pred. unfold previous_of.
        rewrite lookup_app_l by (simpl; lia). reflexivity.
Qed.

Lemma linked_run_calls calls : forall w rs w' cs,
  run_calls L h calls w = (rs, w') ->
  linked L (kv w) cs ->
  linked L (kv w') (cs ++ returned rs).
Proof.
  induction calls as [| c calls IH]; intros w rs w' cs H Hl; simpl in H.
  - inversion H; subst. simpl. rewrite app_nil_r. exact Hl.
  - destruct (run_call L h c w) as [r w1] eqn:Hc.
    destruct (run_calls L h calls w1) as [rs1 w2] eqn:Hr.
    inversion H; subst. destruct r as [e | cid]; simpl.
    + apply (IH _ _ _ _ Hr).
      exact (linked_grows _ _ _ (run_call_inl_grows _ _ _ _ _ _ Hc) Hl).
    + replace (cs ++ cid :: returned rs1) with ((cs ++ [cid]) ++ returned rs1)
        by (rewrite <- app_assoc; reflexivity).
      apply (IH _ _ _ _ Hr). exact (linked_success _ _ _ _ _ Hl Hc).
Qed.

Hypothesis decode_encode : forall n bs,
  ls_encode L n = inr bs -> ls_decode L bs = Some n.




End ChainLinearity.

(** ** The content handler *)

Lemma TrimPrefix_slash raw :
  strings_TrimPrefix "/" raw = "/" \/ strings_TrimPrefix "/" raw = "".
Proof.
  unfold strings_TrimPrefix. destruct raw as [| c raw]; simpl.
  - left. reflexivity.
  - destruct (Ascii.eqb c "/"); [| left; reflexivity].
    destruct raw; simpl; [right | left]; reflexivity.
Qed.

Section ContentHandler.

Variable L : Libs.

(** [cid.Decode] rejects a string of fewer than two characters. *)
Hypothesis Decode_too_short : forall s,
  (String.length s < 2)%nat -> exists e, Cid_Decode L s = inl e.

(** C5 (what the code does). The content handler answers every GET request
    with status 400, whatever its path and whatever the datastore holds: the
    path parameter it hands to [cid.Decode] is the string "/" with the raw
    path trimmed off its front, which is "/" or the empty string. *)
Theorem handleGetContent_rejects_every_GET r w :
  req_Method r = MethodGet ->
  handleGetContent L r w =
    (http_Error ("invalid CID: " +:+ strings_TrimPrefix "/" (req_RawPath r))
       StatusBadRequest, w) /\
  resp_Status (fst (handleGetContent L r w)) = StatusBadRequest.
Proof.
  intros Hm.
  assert (H : handleGetContent L r w =
    (http_Error ("invalid CID: " +:+ strings_TrimPrefix "/" (req_RawPath r))
       StatusBadRequest, w)).
  { unfold handleGetContent. rewrite Hm. simpl negb. cbv iota.
    destruct (Decode_too_short (strings_TrimPrefix "/" (req_RawPath r))) as [e He].
    - destruct (TrimPrefix_slash (req_RawPath r)) as [-> | ->]; simpl; lia.
    - rewrite He. reflexivity. }
  split; [exact H | rewrite H; reflexivity].
Qed.

End ContentHandler.

(** ** Construction *)

Section ChunkSizeOption.

Variable L : Libs.

Lemma apply_options_app o1 o2 : forall opts,
  apply_options (o1 ++ o2) opts =
  match apply_options o1 opts with
  | inl err => inl err
  | inr opts' => apply_options o2 opts'
  end.
Proof.
  induction o1 as [| apply o1 IH]; intros opts; simpl; [reflexivity |].
  destruct (apply opts) as [opts' [err |]]; [reflexivity | apply IH].
Qed.

Lemma finish_options_chunk_size v opts :
  finish_options L (fst (WithAdEntriesChunkSize v opts)) =
  match finish_options L opts with
  | inl err => inl err
  | inr opts' => inr (fst (WithAdEntriesChunkSize v opts'))
  end.
Proof.
  destruct opts as [addr tp pid key addrs dir size store md].
  unfold finish_options. simpl.
  destruct md; [| reflexivity].
  destruct addrs; [| reflexivity].
  destruct key.
  - destruct store; reflexivity.
  - destruct (GenerateEd25519Key L) as [err | key]; [reflexivity |].
    destruct (peer_IDFromPrivateKey L key) as [err | pid']; [reflexivity |].
    simpl. destruct store; reflexivity.
Qed.

(** What makes [newOptions], and so [New], fail. *)
Lemma newOptions_inl o err :
  newOptions L o = inl err ->
  apply_options o default_options = inl err \/
  exists opts,
    apply_options o default_options = inr opts /\
    ((metadata opts = None /\ err = ErrorString "metadata must be set") \/
     (providerAddrs opts = None /\
      err = ErrorString "at least one provider address must be set") \/
     (identity opts = None /\
      (GenerateEd25519Key L = inl err \/
       exists key, GenerateEd25519Key L = inr key /\
                   peer_IDFromPrivateKey L key = inl err))).
Proof.
  unfold newOptions.
  destruct (apply_options o default_options) as [err' | opts]; intros H.
  - left. exact H.
  - right. exists opts. split; [reflexivity |].
    destruct opts as [addr tp pid key addrs dir size store md].
    unfold finish_options in H. simpl in *.
    destruct md; [| inversion H; auto].
    destruct addrs; [| inversion H; auto].
    destruct key.
    + destruct store; discriminate H.
    + right. right. split; [reflexivity |].
      destruct (GenerateEd25519Key L) as [err' | key];
        [left; inversion H; reflexivity |].
      right. exists key. split; [reflexivity |].
      destruct (peer_IDFromPrivateKey L key) as [err' | pid'];
        [inversion H; reflexivity |].
      simpl in H. destruct store; discriminate H.
Qed.

(** C8 (amended). The chunk size is not checked at construction:
    [WithAdEntriesChunkSize v] reports no error and stores [v] for every
    [v], also below one; adding it at the end of an option list changes the
    outcome of the construction only in that a herald that is built has [v]
    as its chunk size; and the construction fails only when an option
    reports an error, when metadata or provider addresses are missing, or
    when no identity is given and generating one fails. *)
Theorem chunk_size_is_not_validated o v :
  (forall opts,
      snd (WithAdEntriesChunkSize v opts) = None /\
      adEntriesChunkSize (fst (WithAdEntriesChunkSize v opts)) = v) /\
  New L (o ++ [WithAdEntriesChunkSize v]) =
    match New L o with
    | inl err => inl err
    | inr hd => inr (mkHerald (fst (WithAdEntriesChunkSize v (herald_options hd))))
    end /\
  (forall err,
      New L o = inl err ->
      apply_options o default_options = inl err \/
      exists opts,
        apply_options o default_options = inr opts /\
        ((metadata opts = None /\ err = ErrorString "metadata must be set") \/
         (providerAddrs opts = None /\
          err = ErrorString "at least one provider address must be set") \/
         (identity opts = None /\
          (GenerateEd25519Key L = inl err \/
           exists key, GenerateEd25519Key L = inr key /\
                       peer_IDFromPrivateKey L key = inl err)))).
Proof.
  split; [intros opts; split; reflexivity |].
  split.
  - unfold New, newOptions. rewrite apply_options_app.
    destruct (apply_options o (default_options)) as [err | opts]; [reflexivity |].
    cbn [apply_options].
    change (WithAdEntriesChunkSize v opts)
      with (fst (WithAdEntriesChunkSize v opts), @None error).
    cbv iota. rewrite finish_options_chunk_size.
    destruct (finish_options L opts); reflexivity.
  - intros err H. apply newOptions_inl. unfold New in H.
    destruct (newOptions L o); [inversion H; reflexivity | discriminate H].
Qed.

End ChunkSizeOption.

(** ** Durability of what a call stored *)

Section Durability.

Variable L : Libs.
Variable h : Herald.

Hypothesis Cid_String_not_head : forall c, Cid_String L c <> "head".

Hypothesis BuildLink_inj : forall b1 b2,
  Cid_String L (BuildLink L b1) = Cid_String L (BuildLink L b2) -> b1 = b2.




Hypothesis decode_encode : forall n bs,
  ls_encode L n = inr bs -> ls_decode L bs = Some n.




End Durability.

(** ** What a successful call stored, and what a late failure leaves *)

Section Stored.

Variable L : Libs.
Variable h : Herald.

Hypothesis Cid_String_not_head : forall c, Cid_String L c <> "head".

Hypothesis decode_encode : forall n bs,
  ls_encode L n = inr bs -> ls_decode L bs = Some n.

(** X3. After a successful Publish or Retract that returned [cid], the
    datastore holds under [cid] bytes whose link is [cid] and that decode to
    an advertisement with the provider ID, the addresses and the metadata
    of the configuration, the context ID and the removal flag of the call,
    and the signature that [Sign] returned for these fields; GetContent
    returns these bytes when the datastore answers. *)
Theorem advertisement_contents c w cid w' :
  run_call L h c w = (inr cid, w') ->
  exists ad bs,
    kv w' !! dsKey L cid = Some bs /\
    BuildLink L bs = cid /\
    ls_decode L bs = Some (NodeAdvertisement ad) /\
    (available w' = true -> fst (GetContent L cid w') = inr bs) /\
    ad_Provider ad = peerID_String (id (herald_options h)) /\
    ad_Addresses ad = default [] (providerAddrs (herald_options h)) /\
    ad_Metadata ad = default [] (metadata (herald_options h)) /\
    ad_ContextID ad = call_ID c /\
    ad_IsRm ad = call_isRm c /\
    Advertisement_Sign L (identity (herald_options h))
      (newAdvertisement h (ad_PreviousID ad) (ad_ContextID ad) (ad_Entries ad)
         (ad_IsRm ad) []) = inr (ad_Signature ad).
Proof.
  rewrite run_call_unfold. intros H.
  apply bind_inr in H as (entries & w0 & _ & H).
  apply generateAdvertisement_inr in H
    as (hd & w1 & sig & bs & _ & Hsig & Henc & Hc & Hkv).
  assert (Hlook : kv w' !! dsKey L cid = Some bs).
  { rewrite Hkv. rewrite lookup_insert_ne.
    - apply lookup_insert_eq.
    - intros E. symmetry in E. exact (dsKey_not_headKey L Cid_String_not_head _ E). }
  exists (newAdvertisement h (previousID_of hd) (call_ID c) entries (call_isRm c) sig), bs.
  split; [exact Hlook |]. split; [symmetry; exact Hc |].
  split; [exact (decode_encode _ _ Henc) |].
  split.
  - intros Hav. unfold GetContent.
    pose proof (ds_Get_available (dsKey L cid) w' Hav) as Hg.
    rewrite Hlook in Hg.
    destruct (ds_Get (dsKey L cid) w') as [r w2]. simpl in Hg. subst r. reflexivity.
  - repeat split. exact Hsig.
Qed.

(** X4. When everything up to the write of the head succeeds and the
    datastore refuses that write, the call returns the datastore's error,
    the entry at the head key is the one from before the call, and the
    advertisement block stays in the datastore under its CID, readable but
    not linked from the head. *)
Theorem failed_head_write_leaves_the_block c w entries w0 hd w1 sig n cid w2 msg fs :
  call_entries L h c w = (inr entries, w0) ->
  GetHead L w0 = (inr hd, w1) ->
  Advertisement_Sign L (identity (herald_options h))
    (newAdvertisement h (previousID_of hd) (call_ID c) entries (call_isRm c) [])
    = inr sig ->
  Advertisement_ToNode L
    (newAdvertisement h (previousID_of hd) (call_ID c) entries (call_isRm c) sig)
    = inr n ->
  ls_Store L n w1 = (inr cid, w2) ->
  faults w2 = Some msg :: fs ->
  run_call L h c w = (inl (ErrorString msg), mkWorld (kv w2) fs) /\
  kv w2 !! headKey = kv w !! headKey /\
  loadAdvertisement L (mkWorld (kv w2) fs) cid =
    Some (newAdvertisement h (previousID_of hd) (call_ID c) entries (call_isRm c) sig).
Proof.
  intros He Hh Hs Hn Hst Hf.
  assert (Hrun : run_call L h c w = (inl (ErrorString msg), mkWorld (kv w2) fs)).
  { rewrite run_call_unfold, (bind_step _ _ _ _ _ He).
    unfold generateAdvertisement.
    rewrite (bind_step _ _ _ _ _ Hh). fold (previousID_of hd).
    erewrite bind_step; [| unfold lift; rewrite Hs; reflexivity].
    erewrite bind_step; [| unfold lift; rewrite Hn; reflexivity].
    rewrite (bind_step _ _ _ _ _ Hst).
    apply bind_fail. unfold ds_Put, next_fault. rewrite Hf. reflexivity. }
  split; [exact Hrun |].
  pose proof (run_call_inl_grows _ _ _ _ _ _ Hrun) as Hg. simpl in Hg.
  split; [exact (grows_head L Cid_String_not_head _ _ Hg) |].
  apply Advertisement_ToNode_inr in Hn. subst n.
  apply ls_Store_inr in Hst as (bs & Henc & -> & Hkv).
  unfold loadAdvertisement, loadNode. simpl.
  rewrite Hkv, lookup_insert_eq, (decode_encode _ _ Henc). reflexivity.
Qed.

End Stored.

(** ** The chain as a whole *)

Section WholeChain.

Variable L : Libs.
Variable h : Herald.

Hypothesis Cid_String_not_head : forall c, Cid_String L c <> "head".

Hypothesis BuildLink_inj : forall b1 b2,
  Cid_String L (BuildLink L b1) = Cid_String L (BuildLink L b2) -> b1 = b2.

Hypothesis CidFromBytes_Bytes : forall bs,
  CidFromBytes L (Cid_Bytes (BuildLink L bs)) = (BuildLink L bs, None).

Hypothesis BuildLink_defined : forall bs, BuildLink L bs <> Undef.

Lemma linked_fresh (m : gmap string (list byte)) :
  m !! headKey = None -> linked L m [].
Proof.
  intros Hfresh. split; [exact Hfresh |].
  intros j c Hj. rewrite lookup_nil in Hj. discriminate.
Qed.

(** X5. The head is the last success.  After any sequence of Publish and
    Retract calls on a datastore that had no head entry, the head key holds
    the bytes of the CID that the last successful call returned, GetHead
    returns that CID when the datastore answers, and it returns [Undef]
    when no call succeeded: a failed call never moves the head. *)
Theorem head_is_the_last_success calls w rs w' :
  kv w !! headKey = None ->
  run_calls L h calls w = (rs, w') ->
  kv w' !! headKey = option_map Cid_Bytes (last (returned rs)) /\
  (available w' = true ->
   fst (GetHead L w') = inr (default Undef (last (returned rs)))).
Proof.
  intros Hfresh Hrun.
  destruct (linked_run_calls L h Cid_String_not_head BuildLink_inj
              CidFromBytes_Bytes BuildLink_defined _ _ _ _ _ Hrun
              (linked_fresh _ Hfresh)) as [Hhead Hblocks].
  simpl in Hhead, Hblocks.
  split; [exact Hhead |].
  intros Hav. rewrite (GetHead_available L w' Hav), Hhead.
  destruct (last (returned rs)) as [cl |] eqn:Hl; simpl; [| reflexivity].
  rewrite last_lookup in Hl.
  destruct (Hblocks _ _ Hl) as (ad & bs & _ & -> & _ & _).
  rewrite CidFromBytes_Bytes. reflexivity.
Qed.

Hypothesis decode_encode : forall n bs,
  ls_encode L n = inr bs -> ls_decode L bs = Some n.



End WholeChain.

(** ** Content addressing *)

Section ContentAddressing.

Variable L : Libs.
Variable h : Herald.






End ContentAddressing.

(** ** Reading *)

Section Reading.

Variable L : Libs.
Variable h : Herald.






(** X9. A request with any method but GET gets status 405 from both
    handlers, before the datastore is asked anything. *)
Theorem other_methods_are_refused r w :
  req_Method r <> MethodGet ->
  handleGetHead L h r w = (http_Error "method not allowed" StatusMethodNotAllowed, w) /\
  handleGetContent L r w = (http_Error "method not allowed" StatusMethodNotAllowed, w).
Proof.
  intros Hm. apply String.eqb_neq in Hm.
  unfold handleGetHead, handleGetContent. rewrite Hm. split; reflexivity.
Qed.

(** X10. A 200 answer to /head is the signed current head.  Whenever
    [handleGetHead] answers with status 200, the request was a GET, GetHead
    returned a CID other than [Undef], and the body is the encoding of the
    head message for that CID and the configured topic, signed with the
    configured identity, with content type application/json. *)
Theorem head_response_is_sound r w :
  resp_Status (fst (handleGetHead L h r w)) = StatusOK ->
  req_Method r = MethodGet /\
  exists cid sig,
    fst (GetHead L w) = inr cid /\
    cid <> Undef /\
    SignedHead_sign L cid (topic (herald_options h)) (identity (herald_options h))
      = inr sig /\
    SignedHead_Encode L (mkSignedHead cid (topic (herald_options h)) sig)
      = inr (resp_Body (fst (handleGetHead L h r w))) /\
    resp_ContentType (fst (handleGetHead L h r w)) = Some "application/json".
Proof.
  unfold handleGetHead.
  destruct (String.eqb_spec (req_Method r) MethodGet) as [Hm | Hm]; simpl negb; cbv iota;
    [| simpl; discriminate].
  destruct (GetHead L w) as [[e | hd] w1]; [simpl; discriminate |].
  unfold Cid_Equals. destruct (bool_decide_reflect (Undef = hd)) as [Hu | Hu];
    [simpl; discriminate |].
  destruct (SignedHead_sign L hd _ _) as [e | sig] eqn:Hsig; [simpl; discriminate |].
  destruct (SignedHead_Encode L _) as [e | body] eqn:Henc; [simpl; discriminate |].
  simpl. intros _. split; [exact Hm |].
  exists hd, sig. repeat split; try assumption. congruence.
Qed.

Hypothesis CidFromBytes_Bytes : forall bs,
  CidFromBytes L (Cid_Bytes (BuildLink L bs)) = (BuildLink L bs, None).

Hypothesis BuildLink_defined : forall bs, BuildLink L bs <> Undef.

(** X11. After a successful Publish or Retract that returned [cid], a GET
    of /head on a datastore that answers is served with status 200 and the
    encoded head message for [cid], provided signing and encoding succeed;
    when one of the two fails, the status is 500. *)
Theorem head_response_after_success c w cid w' r :
  run_call L h c w = (inr cid, w') ->
  available w' = true ->
  req_Method r = MethodGet ->
  match SignedHead_sign L cid (topic (herald_options h))
          (identity (herald_options h)) with
  | inl _ =>
      resp_Status (fst (handleGetHead L h r w')) = StatusInternalServerError
  | inr sig =>
      match SignedHead_Encode L (mkSignedHead cid (topic (herald_options h)) sig) with
      | inl _ =>
          resp_Status (fst (handleGetHead L h r w')) = StatusInternalServerError
      | inr body =>
          fst (handleGetHead L h r w') =
            mkResponse StatusOK (Some "application/json") body
      end
  end.
Proof.
  intros H Hav Hm.
  apply run_call_inr in H as (entries & w0 & hd & w1 & sig & bs & _ & _ & _ & Hc & Hkv).
  assert (Hhd : fst (GetHead L w') = inr cid).
  { rewrite (GetHead_available L w' Hav), Hkv, lookup_insert_eq, Hc, CidFromBytes_Bytes.
    reflexivity. }
  assert (Hne : Cid_Equals Undef cid = false).
  { unfold Cid_Equals. apply bool_decide_eq_false_2. rewrite Hc.
    intros E. exact (BuildLink_defined bs (eq_sym E)). }
  unfold handleGetHead. rewrite Hm. simpl negb. cbv iota.
  destruct (GetHead L w') as [rh w2]. simpl in Hhd. subst rh. rewrite Hne.
  destruct (SignedHead_sign L cid _ _) as [e | sig']; [reflexivity |].
  destruct (SignedHead_Encode L _) as [e | body]; reflexivity.
Qed.

Hypothesis Cid_String_not_head : forall c, Cid_String L c <> "head".

Lemma failed_calls_keep_head calls : forall w rs w',
  run_calls L h calls w = (rs, w') ->
  returned rs = [] ->
  kv w' !! headKey = kv w !! headKey.
Proof.
  induction calls as [| c calls IH]; intros w rs w' H Hret; simpl in H.
  - inversion H; subst. reflexivity.
  - destruct (run_call L h c w) as [r w1] eqn:Hc.
    destruct (run_calls L h calls w1) as [rs1 w2] eqn:Hr.
    inversion H; subst. destruct r as [e | cid]; simpl in Hret; [| discriminate].
    rewrite (IH _ _ _ Hr Hret).
    exact (grows_head L Cid_String_not_head _ _ (run_call_inl_grows _ _ _ _ _ _ Hc)).
Qed.

(** X12. The empty chain.  On a datastore without head entry, and after any
    Publish and Retract calls on it that all failed, GetHead returns [Undef]
    and no error and a GET of /head is answered with status 204, provided
    the datastore answers. *)
Theorem empty_chain calls w rs w' r :
  kv w !! headKey = None ->
  run_calls L h calls w = (rs, w') ->
  returned rs = [] ->
  available w' = true ->
  req_Method r = MethodGet ->
  fst (GetHead L w') = inr Undef /\
  resp_Status (fst (handleGetHead L h r w')) = StatusNoContent.
Proof.
  intros Hfresh Hrun Hret Hav Hm.
  assert (Hhd : fst (GetHead L w') = inr Undef).
  { rewrite (GetHead_available L w' Hav), (failed_calls_keep_head _ _ _ _ Hrun Hret), Hfresh.
    reflexivity. }
  split; [exact Hhd |].
  unfold handleGetHead. rewrite Hm. simpl negb. cbv iota.
  destruct (GetHead L w') as [rh w1]. simpl in Hhd. subst rh. reflexivity.
Qed.

End Reading.

Section ReadErrors.

Variable L : Libs.
Variable h : Herald.

Lemma ds_Get_fault key w msg fs :
  faults w = Some msg :: fs ->
  ds_Get key w = (inl (ErrorString msg), mkWorld (kv w) fs).
Proof. intros Hf. unfold ds_Get, next_fault. rewrite Hf. reflexivity. Qed.

(** X13. How reads fail.  For a CID without block in a datastore that
    answers, GetContent reports [ErrContentNotFound] while the storage read
    opener passes [datastore.ErrNotFound] on; an error of the datastore
    itself is returned as it is by GetContent, by the read opener and by
    GetHead, and a GET of /head is then answered with status 500. *)
Theorem read_errors c w :
  (kv w !! dsKey L c = None ->
   available w = true ->
   fst (GetContent L c w) = inl ErrContentNotFound /\
   fst (storageReadOpener L (Some c) w) = inl ErrNotFound) /\
  (forall msg fs,
      faults w = Some msg :: fs ->
      fst (GetContent L c w) = inl (ErrorString msg) /\
      fst (storageReadOpener L (Some c) w) = inl (ErrorString msg) /\
      fst (GetHead L w) = inl (ErrorString msg) /\
      forall r, req_Method r = MethodGet ->
        resp_Status (fst (handleGetHead L h r w)) = StatusInternalServerError).
Proof.
  split.
  - intros Hnone Hav.
    pose proof (ds_Get_available (dsKey L c) w Hav) as Hg. rewrite Hnone in Hg.
    unfold GetContent, storageReadOpener, bind, lift. simpl.
    destruct (ds_Get (dsKey L c) w) as [rg w1]. simpl in Hg. subst rg.
    split; reflexivity.
  - intros msg fs Hf.
    assert (Hhd : GetHead L w = (inl (ErrorString msg), mkWorld (kv w) fs)).
    { unfold GetHead. rewrite (ds_Get_fault _ _ _ _ Hf). reflexivity. }
    split; [| split; [| split]].
    + unfold GetContent. rewrite (ds_Get_fault _ _ _ _ Hf). reflexivity.
    + unfold storageReadOpener, bind, lift. simpl.
      rewrite (ds_Get_fault _ _ _ _ Hf). reflexivity.
    + rewrite Hhd. reflexivity.
    + intros r Hm. unfold handleGetHead. rewrite Hm, Hhd. reflexivity.
Qed.

End ReadErrors.

(** ** More on the entry builder *)


Section EntryBuilder.

Variable L : Libs.
Variable h : Herald.

Lemma loop_error_never_succeeds e rest ms : forall mhs next w r w',
  generateEntries_loop L h (map inr ms ++ inl e :: rest) mhs next w = (r, w') ->
  exists e', r = inl e'.
Proof.
  induction ms as [| mh ms IH]; intros mhs next w r w' H; simpl in H.
  - unfold fail in H. inversion H; subst. eauto.
  - destruct (Z.of_nat (length (mhs ++ [mh])) >=? adEntriesChunkSize (herald_options h)).
    + destruct r as [e' | l]; [eauto |].
      apply bind_inr in H as (a & w1 & _ & H). exact (IH _ _ _ _ _ H).
    + exact (IH _ _ _ _ _ H).
Qed.

Lemma loop_error_is_returned e rest ms : forall mhs next w l w1,
  generateEntries_loop L h (map inr ms) mhs next w = (inr l, w1) ->
  fst (generateEntries_loop L h (map inr ms ++ inl e :: rest) mhs next w) = inl e.
Proof.
  induction ms as [| mh ms IH]; intros mhs next w l w1 H.
  - reflexivity.
  - cbn [map app generateEntries_loop] in *.
    destruct (Z.of_nat (length (mhs ++ [mh])) >=? adEntriesChunkSize (herald_options h)).
    + apply bind_inr in H as (a & w' & Hc & H).
      rewrite (bind_step _ _ _ _ _ Hc). exact (IH _ _ _ _ _ H).
    + exact (IH _ _ _ _ _ H).
Qed.


Hypothesis Cid_String_not_head : forall c, Cid_String L c <> "head".

(** X14. An error of the iterator ends the Publish.  When the iterator
    reports an error after yielding [ms], the entry builder and Publish
    return an error and never a link, and the entry at the head key stays;
    the error returned is the iterator's own whenever the builder gets
    through the multihashes before it, that is, succeeds on the catalog cut
    off before the error. *)
Theorem iterator_error_aborts catalog ms e rest w :
  catalog_Iterator catalog = map inr ms ++ inl e :: rest ->
  (forall r w', generateEntries L h catalog w = (r, w') -> exists e', r = inl e') /\
  (forall r w', Publish L h catalog w = (r, w') ->
     (exists e', r = inl e') /\ kv w' !! headKey = kv w !! headKey) /\
  (forall l w1,
     generateEntries L h (mkCatalog (catalog_ID catalog) (map inr ms)) w = (inr l, w1) ->
     fst (generateEntries L h catalog w) = inl e /\
     fst (Publish L h catalog w) = inl e).
Proof.
  intros Hit.
  assert (Hgen : forall r w', generateEntries L h catalog w = (r, w') ->
                   exists e', r = inl e').
  { intros r w'. unfold generateEntries. rewrite Hit.
    destruct (adEntriesChunkSize (herald_options h) <? 0).
    - unfold fail. intros H; inversion H; subst. eauto.
    - apply loop_error_never_succeeds. }
  split; [exact Hgen |]. split.
  - intros r w' Hp.
    assert (Hr : exists e', r = inl e').
    { unfold Publish in Hp. destruct r as [e' | cid]; [eauto |].
      apply bind_inr in Hp as (lnk & w0 & Hg & _).
      destruct (Hgen _ _ Hg) as [e' He']. discriminate. }
    split; [exact Hr |]. destruct Hr as [e' ->].
    exact (grows_head L Cid_String_not_head _ _
             (run_call_inl_grows L h (CallPublish catalog) _ _ _ Hp)).
  - intros l w1. unfold generateEntries at 1. simpl catalog_Iterator.
    destruct (adEntriesChunkSize (herald_options h) <? 0) eqn:Hneg;
      [unfold fail; discriminate |].
    intros Hok.
    assert (Hfst : fst (generateEntries L h catalog w) = inl e).
    { unfold generateEntries. rewrite Hneg, Hit.
      exact (loop_error_is_returned _ _ _ _ _ _ _ _ Hok). }
    split; [exact Hfst |].
    unfold Publish, bind.
    destruct (generateEntries L h catalog w) as [rg wg]. simpl in Hfst. subst rg.
    reflexivity.
Qed.

(** X15. A negative chunk size, which the construction accepts, makes every
    Publish panic when the buffer of the entry builder is made, before the
    catalog is read or the datastore is asked anything. *)
Theorem negative_chunk_size_panics catalog w :
  adEntriesChunkSize (herald_options h) < 0 ->
  Publish L h catalog w = (inl (Panic "makeslice: cap out of range"), w).
Proof.
  intros Hneg. unfold Publish, bind, generateEntries.
  destruct (Z.ltb_spec (adEntriesChunkSize (herald_options h)) 0); [| lia].
  reflexivity.
Qed.

Hypothesis BuildLink_inj : forall b1 b2,
  Cid_String L (BuildLink L b1) = Cid_String L (BuildLink L b2) -> b1 = b2.



Hypothesis decode_encode : forall n bs,
  ls_encode L n = inr bs -> ls_decode L bs = Some n.


End EntryBuilder.

(** ** The storage openers *)

Section OpenerRoundTrip.

Variable L : Libs.

(** X18. What the write opener commits, the read opener returns.  When
    [ls.Store] of a node has returned a link, the bytes of the node were
    committed by the committer of [storageWriteOpener] under that link,
    their link is the one returned, and [storageReadOpener] of the link
    returns exactly these bytes when the datastore answers; on a nil link
    both openers panic and leave the datastore alone. *)
Theorem opener_round_trip n w c w1 :
  ls_Store L n w = (inr c, w1) ->
  available w1 = true ->
  (exists bs,
      ls_encode L n = inr bs /\
      BuildLink L bs = c /\
      storageWriteCommit L bs (Some c) w = (inr tt, w1) /\
      fst (storageReadOpener L (Some c) w1) = inr bs) /\
  (forall bs v, exists msg,
      storageWriteCommit L bs None v = (inl (Panic msg), v) /\
      storageReadOpener L None v = (inl (Panic msg), v)).
Proof.
  intros H Hav. split.
  - unfold ls_Store in H.
    apply bind_inr in H as (bs & w0 & Henc & H).
    apply lift_inr in Henc as [Henc ->].
    apply bind_inr in H as (u & w2 & Hput & H).
    unfold ret in H. inversion H; subst. destruct u.
    exists bs. split; [exact Henc |]. split; [reflexivity |]. split.
    + unfold storageWriteCommit, bind, lift. simpl. exact Hput.
    + unfold storageReadOpener, bind, lift. simpl.
      rewrite (ds_Get_available _ _ Hav), (ds_Put_inr _ _ _ _ _ Hput), lookup_insert_eq.
      reflexivity.
  - intros bs v. eexists. split; reflexivity.
Qed.

End OpenerRoundTrip.

(** ** More on the construction *)

Section ConstructionMore.

Variable L : Libs.

Lemma finish_options_inr opts opts' :
  finish_options L opts = inr opts' ->
  is_Some (metadata opts') /\ is_Some (providerAddrs opts') /\
  is_Some (identity opts') /\ is_Some (ds opts') /\
  httpPublisherListenAddr opts' = httpPublisherListenAddr opts /\
  topic opts' = topic opts /\
  adEntriesChunkSize opts' = adEntriesChunkSize opts /\
  metadata opts' = metadata opts /\
  providerAddrs opts' = providerAddrs opts /\
  (is_Some (identity opts) -> identity opts' = identity opts /\ id opts' = id opts) /\
  (is_Some (ds opts) -> ds opts' = ds opts) /\
  (ds opts = None -> ds opts' = Some MapDatastore) /\
  (identity opts = None ->
     exists key, GenerateEd25519Key L = inr key /\ identity opts' = Some key /\
                 peer_IDFromPrivateKey L key = inr (id opts')).
Proof.
  destruct opts as [addr tp pid key addrs dir size store md].
  unfold finish_options. simpl.
  destruct md as [md |]; [| discriminate].
  destruct addrs as [addrs |]; [| discriminate].
  destruct key as [key |].
  - destruct store as [store |]; intros H; inversion H; subst; simpl;
      repeat split; eauto; try discriminate;
      intros [x Hx]; discriminate.
  - destruct (GenerateEd25519Key L) as [err | key] eqn:Hgen; [discriminate |].
    destruct (peer_IDFromPrivateKey L key) as [err | pid'] eqn:Hid; [discriminate |].
    simpl. destruct store as [store |]; intros H; inversion H; subst; simpl;
      repeat split; eauto; try discriminate;
      try (intros [x Hx]; discriminate);
      match goal with Hn : is_Some None |- _ => destruct Hn as [x Hx]; discriminate end.
Qed.

(** X19. What a constructed herald always has.  Whatever the options, when
    [New] returns a herald, its metadata, its provider addresses, its
    identity and its datastore are set; the datastore is the in-memory map
    when no option gave one, and when no option gave an identity, the
    identity is the generated key and the peer ID the one derived from
    it. *)
Theorem New_sets_what_it_needs o hd :
  New L o = inr hd ->
  is_Some (metadata (herald_options hd)) /\
  is_Some (providerAddrs (herald_options hd)) /\
  is_Some (identity (herald_options hd)) /\
  is_Some (ds (herald_options hd)) /\
  (forall opts, apply_options o default_options = inr opts ->
     (ds opts = None -> ds (herald_options hd) = Some MapDatastore) /\
     (identity opts = None ->
        exists key, GenerateEd25519Key L = inr key /\
                    identity (herald_options hd) = Some key /\
                    peer_IDFromPrivateKey L key = inr (id (herald_options hd)))).
Proof.
  unfold New, newOptions.
  destruct (apply_options o default_options) as [err | opts]; [discriminate |].
  destruct (finish_options L opts) as [err | opts'] eqn:Hfin; [discriminate |].
  intros H; inversion H; subst. simpl.
  destruct (finish_options_inr _ _ Hfin)
    as (Hmd & Haddrs & Hid & Hds & _ & _ & _ & _ & _ & _ & _ & Hmap & Hgen).
  split; [exact Hmd |]. split; [exact Haddrs |]. split; [exact Hid |].
  split; [exact Hds |].
  intros opts0 Heq. inversion Heq; subst opts0. split; assumption.
Qed.

Lemma setter_keeps_identity_matches s o o' :
  identity_matches L o ->
  setter_Option L s o = (o', None) ->
  identity_matches L o'.
Proof.
  intros Hm. destruct s; simpl; unfold identity_matches in *.
  - unfold WithHttpPublisherListenAddr. intros H; inversion H; subst. exact Hm.
  - unfold WithTopic. intros H; inversion H; subst. exact Hm.
  - unfold WithIdentity.
    destruct (peer_IDFromPrivateKey L v) as [err | pid] eqn:Hid; intros H;
      inversion H; subst. simpl. intros key Hk. inversion Hk; subst. exact Hid.
  - unfold WithProviderAddress. intros H; inversion H; subst. exact Hm.
  - unfold WithLocalPublisherDir. intros H; inversion H; subst. exact Hm.
  - unfold WithAdEntriesChunkSize. intros H; inversion H; subst. exact Hm.
  - unfold WithDatastore. intros H; inversion H; subst. exact Hm.
  - unfold WithMetadata. intros H; inversion H; subst. exact Hm.
Qed.

Lemma setters_keep_identity_matches ss : forall o o',
  identity_matches L o ->
  apply_options (map (setter_Option L) ss) o = inr o' ->
  identity_matches L o'.
Proof.
  induction ss as [| s ss IH]; intros o o' Hm H; simpl in H.
  - inversion H; subst. exact Hm.
  - destruct (setter_Option L s o) as [o1 [err |]] eqn:Hs; [discriminate |].
    exact (IH _ _ (setter_keeps_identity_matches _ _ _ Hm Hs) H).
Qed.

(** X20. The provider ID belongs to the signing key.  For a herald that
    [New] built from calls of the setters of the package, the peer ID that
    it advertises as provider is the ID that the library derives from the
    private key it signs with, whether that key came from WithIdentity or
    was generated. *)
Theorem provider_ID_belongs_to_identity ss hd :
  New L (map (setter_Option L) ss) = inr hd ->
  exists key,
    identity (herald_options hd) = Some key /\
    peer_IDFromPrivateKey L key = inr (id (herald_options hd)).
Proof.
  unfold New, newOptions.
  destruct (apply_options (map (setter_Option L) ss) default_options)
    as [err | opts] eqn:Happ; [discriminate |].
  destruct (finish_options L opts) as [err | opts'] eqn:Hfin; [discriminate |].
  intros H; inversion H; subst. simpl.
  assert (Hm : identity_matches L opts).
  { apply (setters_keep_identity_matches ss default_options); [| exact Happ].
    intros key Hk. discriminate. }
  destruct (finish_options_inr _ _ Hfin)
    as (_ & _ & _ & _ & _ & _ & _ & _ & _ & Hkeep & _ & _ & Hgen).
  destruct (identity opts) as [key |] eqn:Hk.
  - destruct (Hkeep (ex_intro _ key eq_refl)) as [Hi Hp].
    exists key. split; [exact Hi |]. rewrite Hp. exact (Hm key Hk).
  - destruct (Hgen eq_refl) as (key & _ & Hi & Hp). exists key. auto.
Qed.

(** X21. An empty address list passes.  The check for provider addresses
    only tests for a nil slice: with metadata and an identity set, an
    option list that ends in WithProviderAddress without any address builds
    a herald, and that herald has an empty list of addresses. *)
Theorem empty_address_list_is_accepted o opts :
  apply_options o default_options = inr opts ->
  is_Some (metadata opts) ->
  is_Some (identity opts) ->
  exists hd,
    New L (o ++ [WithProviderAddress []]) = inr hd /\
    providerAddrs (herald_options hd) = Some [].
Proof.
  intros Happ [md Hmd] [key Hkey].
  unfold New, newOptions. rewrite apply_options_app, Happ.
  destruct opts as [addr tp pid key' addrs dir size store md'].
  simpl in Hmd, Hkey. subst md' key'.
  unfold finish_options. simpl.
  destruct store as [store |]; eexists; split; reflexivity.
Qed.

(** X22. The first error of an option is the error of [New].  When the
    options before it apply and an option reports an error, [New] returns
    that error, whatever options follow. *)
Theorem first_option_error_is_returned o1 apply o2 opts opts' err :
  apply_options o1 default_options = inr opts ->
  apply opts = (opts', Some err) ->
  New L (o1 ++ apply :: o2) = inl err.
Proof.
  intros Happ Herr. unfold New, newOptions.
  rewrite apply_options_app, Happ. simpl. rewrite Herr. reflexivity.
Qed.

End ConstructionMore.

(** ** How the setters compose *)

Section Setters.

Variable L : Libs.

Lemma last_cons_default {A} (l : list A) (v d : A) :
  default d (last (v :: l)) = default v (last l).
Proof.
  destruct l as [| x l]; [reflexivity |].
  rewrite last_cons. destruct (last (x :: l)) eqn:Hlast; [reflexivity |].
  apply last_None in Hlast. discriminate.
Qed.

Lemma last_cons_or {A} (l : list A) (v : A) (d : option A) :
  match last (v :: l) with Some x => Some x | None => d end
  = match last l with Some x => Some x | None => Some v end.
Proof.
  destruct l as [| x l]; [reflexivity |].
  rewrite last_cons. destruct (last (x :: l)) eqn:Hlast; [reflexivity |].
  apply last_None in Hlast. discriminate.
Qed.

Lemma last_set_cons {A} (pick : setter -> option A) s ss (d : A) :
  last_set pick (s :: ss) d = last_set pick ss (default d (pick s)).
Proof.
  unfold last_set. simpl. destruct (pick s) as [v |]; [| reflexivity].
  apply last_cons_default.
Qed.

Lemma setters_last_set {A} (g : options -> A) (pick : setter -> option A) :
  (forall s o o', setter_Option L s o = (o', None) -> g o' = default (g o) (pick s)) ->
  forall ss o o',
    apply_options (map (setter_Option L) ss) o = inr o' ->
    g o' = last_set pick ss (g o).
Proof.
  intros Hstep. induction ss as [| s ss IH]; intros o o' H; simpl in H.
  - inversion H; subst. reflexivity.
  - destruct (setter_Option L s o) as [o1 [err |]] eqn:Hs; [discriminate |].
    rewrite last_set_cons, <- (Hstep _ _ _ Hs). exact (IH _ _ H).
Qed.

Ltac setter_cases :=
  intros s o o'; destruct s; simpl;
  try (unfold WithIdentity; destruct (peer_IDFromPrivateKey L _));
  let Hs := fresh "Hs" in intros Hs; inversion Hs; subst; reflexivity.

(** X23. Defaults, and the last setter wins.  In a herald that [New] built
    from calls of the setters of the package, the listen address, the
    topic, the chunk size, the provider addresses, the metadata and the
    datastore are those of the last setter of their kind in the list; where
    the list has none, the listen address is 0.0.0.0:40080, the topic
    /indexer/ingest/mainnet, the chunk size 16384 and the datastore the
    in-memory map. *)
Theorem last_setter_wins ss hd :
  New L (map (setter_Option L) ss) = inr hd ->
  httpPublisherListenAddr (herald_options hd)
    = last_set pick_listenAddr ss "0.0.0.0:40080" /\
  topic (herald_options hd) = last_set pick_topic ss "/indexer/ingest/mainnet" /\
  adEntriesChunkSize (herald_options hd) = last_set pick_chunkSize ss 16384 /\
  providerAddrs (herald_options hd) = last_set pick_providerAddrs ss None /\
  metadata (herald_options hd) = last_set pick_metadata ss None /\
  ds (herald_options hd) = Some (last_set pick_datastore ss MapDatastore).
Proof.
  unfold New, newOptions.
  destruct (apply_options (map (setter_Option L) ss) default_options)
    as [err | opts] eqn:Happ; [discriminate |].
  destruct (finish_options L opts) as [err | opts'] eqn:Hfin; [discriminate |].
  intros H; inversion H; subst. simpl.
  destruct (finish_options_inr L _ _ Hfin)
    as (_ & _ & _ & _ & Hl & Ht & Hc & Hm & Ha & _ & Hds & Hmap & _).
  rewrite Hl, Ht, Hc, Hm, Ha.
  split; [| split; [| split; [| split; [| split]]]].
  - apply (setters_last_set httpPublisherListenAddr pick_listenAddr) in Happ;
      [exact Happ | setter_cases].
  - apply (setters_last_set topic pick_topic) in Happ; [exact Happ | setter_cases].
  - apply (setters_last_set adEntriesChunkSize pick_chunkSize) in Happ;
      [exact Happ | setter_cases].
  - apply (setters_last_set providerAddrs pick_providerAddrs) in Happ;
      [exact Happ | setter_cases].
  - apply (setters_last_set metadata pick_metadata) in Happ; [exact Happ | setter_cases].
  - assert (Hd : ds opts = last (omap pick_datastore ss)).
    { clear Hfin Hl Ht Hc Hm Ha Hds Hmap H.
      assert (Hgen : forall ss o o',
                 apply_options (map (setter_Option L) ss) o = inr o' ->
                 ds o' = match last (omap pick_datastore ss) with
                         | Some v => Some v
                         | None => ds o
                         end).
      { clear. induction ss as [| s ss IH]; intros o o' H; simpl in H.
        - inversion H; subst. reflexivity.
        - destruct (setter_Option L s o) as [o1 [err |]] eqn:Hs; [discriminate |].
          rewrite (IH _ _ H). simpl.
          destruct s; simpl in *;
            try (unfold WithIdentity in Hs; destruct (peer_IDFromPrivateKey L _));
            inversion Hs; subst; simpl; try reflexivity.
          symmetry. apply last_cons_or. }
      rewrite (Hgen _ _ _ Happ). simpl.
      destruct (last (omap pick_datastore ss)); reflexivity. }
    unfold last_set. destruct (ds opts) as [store |] eqn:Hs.
    + rewrite (Hds (ex_intro _ store eq_refl)), <- Hd. reflexivity.
    + rewrite (Hmap eq_refl), <- Hd. reflexivity.
Qed.

End Setters.

(** ** A catalog that fits into one chunk *)

Lemma chunk_lists_small (n : nat) (ms : list Multihash) : forall mhs,
  (1 <= length (mhs ++ ms) <= n)%nat ->
  chunk_lists n ms mhs [] = [mhs ++ ms].
Proof.
  induction ms as [| mh ms IH]; intros mhs Hlen.
  - rewrite app_nil_r in *. destruct mhs; [simpl in Hlen; lia | reflexivity].
  - simpl. rewrite length_app in *. simpl in *.
    destruct (Nat.leb_spec n (length mhs + 1)) as [Hge | Hlt].
    + destruct ms; [| simpl in Hlen; lia]. reflexivity.
    + rewrite IH by (rewrite !length_app; simpl; lia).
      rewrite <- app_assoc. reflexivity.
Qed.

Section SmallCatalog.

Variable L : Libs.
Variable h : Herald.

Hypothesis BuildLink_inj : forall b1 b2,
  Cid_String L (BuildLink L b1) = Cid_String L (BuildLink L b2) -> b1 = b2.

Hypothesis decode_encode : forall n bs,
  ls_encode L n = inr bs -> ls_decode L bs = Some n.

(** X24. A catalog that fits into one chunk.  When the iterator yields at
    least one and at most [chunkLimit] multihashes, without error, the link
    that the builder returns leads to a single chunk, which holds all of
    them in the iterator's order and has no next link. *)
Theorem small_catalog_is_one_chunk catalog ms w lnk w' :
  catalog_Iterator catalog = map inr ms ->
  (1 <= length ms <= chunkLimit h)%nat ->
  generateEntries L h catalog w = (inr lnk, w') ->
  forall fuel, (1 <= fuel)%nat ->
    walkChunks L fuel w' lnk = Some [mkEntryChunk ms None].
Proof.
  intros Hit Hlen H fuel Hfuel.
  destruct (generateEntries_Chain L h BuildLink_inj _ _ _ _ _ Hit H)
    as (chunks & Hch & Hmap).
  rewrite (chunk_lists_small _ ms []) in Hmap by exact Hlen. simpl in Hmap.
  destruct chunks as [| ch [| ch2 chunks]]; try discriminate Hmap.
  inversion Hmap as [Hentries].
  assert (Hnext : chunk_Next ch = None).
  { inversion Hch as [| ch0 bs rest _ _ Hrest]; subst.
    inversion Hrest. reflexivity. }
  rewrite (Chain_walk L decode_encode _ _ _ Hch fuel) by (simpl; lia).
  destruct ch as [es nx]. simpl in *. subst. reflexivity.
Qed.

End SmallCatalog.

(** ** The reference instance meets the assumptions *)

Module RefLaws.

Import Ref.

Lemma cid_string_not_head : forall c, Cid_String libs c <> "head".
Proof. intros c. simpl. unfold cid_string. discriminate. Qed.

Lemma build_link_inj : forall b1 b2,
  Cid_String libs (BuildLink libs b1) = Cid_String libs (BuildLink libs b2) -> b1 = b2.
Proof.
  intros b1 b2 H.
  apply (f_equal (string_drop 1)) in H.
  change (string_of_list_byte (x01 :: x29 :: b1) =
          string_of_list_byte (x01 :: x29 :: b2)) in H.
  apply (f_equal list_byte_of_string) in H.
  rewrite !list_byte_of_string_of_list_byte in H.
  congruence.
Qed.

Lemma cid_from_bytes_bytes : forall bs,
  CidFromBytes libs (Cid_Bytes (BuildLink libs bs)) = (BuildLink libs bs, None).
Proof. intros bs. reflexivity. Qed.

Lemma cid_from_bytes_error : forall bs c e,
  CidFromBytes libs bs = (c, Some e) -> c = Undef.
Proof.
  intros bs c e. simpl. unfold cid_from_bytes.
  destruct bs as [| t [| u bs]]; try (intros H; inversion H; reflexivity).
  destruct (Byte.eqb t x01); intros H; inversion H; reflexivity.
Qed.

Lemma build_link_defined : forall bs, BuildLink libs bs <> Undef.
Proof. intros bs. simpl. unfold build_link, Undef. discriminate. Qed.

Lemma decode_too_short : forall s,
  (String.length s < 2)%nat -> exists e, Cid_Decode libs s = inl e.
Proof.
  intros s Hs. simpl.
  destruct s as [| c [| c' s]]; [| | simpl in Hs; lia].
  - eexists. reflexivity.
  - destruct c as [[] [] [] [] [] [] [] []]; eexists; reflexivity.
Qed.

Lemma dec_bytes_enc v : forall rest,
  dec_bytes (enc_bytes v ++ rest) = Some (v, rest).
Proof.
  unfold enc_bytes. induction v as [| b v IH]; intros rest.
  - reflexivity.
  - simpl. rewrite IH. reflexivity.
Qed.

Lemma dec_items_escape x : forall cur rest,
  dec_items cur (escape x ++ x02 :: rest) =
  match dec_items [] rest with
  | Some (l, r') => Some ((cur ++ x) :: l, r')
  | None => None
  end.
Proof.
  induction x as [| b x IH]; intros cur rest.
  - simpl. rewrite app_nil_r. reflexivity.
  - simpl. rewrite IH, <- app_assoc. reflexivity.
Qed.

Lemma dec_items_enc l : forall rest,
  dec_items [] (enc_items l ++ rest) = Some (l, rest).
Proof.
  unfold enc_items. induction l as [| x l IH]; intros rest.
  - reflexivity.
  - simpl. rewrite <- !app_assoc. simpl.
    rewrite dec_items_escape.
    specialize (IH rest). rewrite <- app_assoc in IH. simpl in IH.
    rewrite IH. reflexivity.
Qed.

Lemma dec_link_enc l rest : dec_link (enc_link l ++ rest) = Some (l, rest).
Proof.
  destruct l as [[str] |]; simpl; [| reflexivity].
  rewrite dec_bytes_enc. reflexivity.
Qed.

Lemma dec_bool_enc b rest : dec_bool (enc_bool b ++ rest) = Some (b, rest).
Proof. destruct b; reflexivity. Qed.

Lemma dec_chunk_enc c : dec_chunk (enc_chunk c) = Some c.
Proof.
  destruct c as [es nx]. unfold dec_chunk, enc_chunk. simpl.
  rewrite dec_items_enc.
  rewrite <- (app_nil_r (enc_link nx)), dec_link_enc. reflexivity.
Qed.

Lemma strings_of_bytes_of_strings (l : list string) :
  map string_of_list_byte (map list_byte_of_string l) = l.
Proof.
  induction l as [| s l IH]; simpl; [reflexivity |].
  rewrite string_of_list_byte_of_string, IH. reflexivity.
Qed.

Lemma dec_ad_enc a : dec_ad (enc_ad a) = Some a.
Proof.
  destruct a as [prev prov addrs ents ctx md rm sig].
  unfold dec_ad, enc_ad. simpl.
  rewrite dec_link_enc, dec_bytes_enc, dec_items_enc, dec_link_enc.
  rewrite !dec_bytes_enc, dec_bool_enc.
  rewrite <- (app_nil_r (enc_bytes sig)), dec_bytes_enc.
  rewrite string_of_list_byte_of_string, strings_of_bytes_of_strings.
  reflexivity.
Qed.

Lemma decode_encode : forall n bs,
  ls_encode libs n = inr bs -> ls_decode libs bs = Some n.
Proof.
  intros n bs. simpl. destruct n as [c | a]; simpl; intros H; inversion H; subst.
  - simpl. rewrite dec_chunk_enc. reflexivity.
  - simpl. rewrite dec_ad_enc. reflexivity.
Qed.

End RefLaws.

(** ** Witnesses and counterexamples on the reference instance *)


(** A run that succeeded is the pair of what it returned and its final world. *)
Lemma succeeded_run {A} (d : A) (p : (error + A) * World) :
  Runs.succeeded (fst p) = true -> p = (inr (Runs.result_or d (fst p)), snd p).
Proof. destruct p as [[e | a] w]; simpl; [discriminate | reflexivity]. Qed.

Import Ref Runs.


(** GetHead after the first Publish returns the CID of that Publish. *)
Lemma GetHead_after_success_witness :
  kv (snd published) !! headKey = Some (Cid_Bytes (cid_of (fst published))) /\
  fst (GetHead libs (snd published)) = inr (cid_of (fst published)).
Proof.
  apply (GetHead_after_success libs (herald 4) RefLaws.cid_from_bytes_bytes
           (CallPublish (catalog [x41] [h1; h2; h3])) fresh).
  - apply (succeeded_run Undef published). vm_compute. reflexivity.
  - vm_compute. reflexivity.
Defined.



(** An empty catalog on a fresh datastore, with chunks of four. *)
Lemma generateEntries_empty_catalog_witness :
  generateEntries libs (herald 4) (catalog [x41] []) fresh = (inr None, fresh) /\
  (None : Link) <> NoEntries libs /\
  Publish libs (herald 4) (catalog [x41] []) fresh =
    generateAdvertisement libs (herald 4) [x41] None false fresh.
Proof.
  apply (generateEntries_empty_catalog libs (herald 4) (catalog [x41] []) fresh).
  - simpl. lia.
  - reflexivity.
Defined.

(** The string form of the CID that the first Publish returned decodes to
    that CID and GetContent finds its block, and yet the handler answers the
    GET request for it with status 400. *)
Lemma handleGetContent_rejects_every_GET_witness :
  Cid_Decode libs (cid_string (cid_of (fst published))) = inr (cid_of (fst published)) /\
  succeeded (fst (GetContent libs (cid_of (fst published)) (snd published))) = true /\
  resp_Status (fst (handleGetContent libs content_request (snd published)))
    = StatusBadRequest.
Proof.
  split; [vm_compute; reflexivity |].
  split; [vm_compute; reflexivity |].
  apply (handleGetContent_rejects_every_GET libs RefLaws.decode_too_short
           content_request (snd published)).
  reflexivity.
Defined.



(** A Retract that cannot sign, after a successful Publish: the error of
    [Sign] is returned and the head entry stays. *)
Lemma head_not_advanced_on_error_witness :
  run_call libs keyless (CallRetract [x41]) (snd published)
    = (inl (ErrorString "nil private key"), snd (GetHead libs (snd published))) /\
  kv (snd (GetHead libs (snd published))) !! headKey = kv (snd published) !! headKey.
Proof.
  apply (proj1 (head_not_advanced_on_error libs keyless RefLaws.cid_string_not_head)
           (CallRetract [x41]) (snd published) (NoEntries libs) (snd published)
           (cid_of (fst (GetHead libs (snd published))))
           (snd (GetHead libs (snd published)))).
  - reflexivity.
  - apply (succeeded_run Undef (GetHead libs (snd published))). vm_compute. reflexivity.
  - apply fail_Sign. reflexivity.
Defined.

(** Construction succeeds with a chunk size of zero. *)
Lemma New_accepts_chunk_size_zero :
  exists hd,
    New libs [WithMetadata (mkMetadata (Some [x01], None));
              WithProviderAddress [mkMultiaddr "/ip4/127.0.0.1/tcp/40080"];
              WithAdEntriesChunkSize 0] = inr hd /\
    adEntriesChunkSize (herald_options hd) < 1.
Proof.
  eexists. split; [vm_compute; reflexivity | reflexivity].
Qed.


(** A head entry of one byte, which is no CID. *)
Lemma GetHead_corrupt_head_witness :
  fst (GetHead libs corrupt) = inr Undef /\
  fst (GetHead libs corrupt)
    = fst (GetHead libs (mkWorld (delete headKey (kv corrupt)) (faults corrupt))) /\
  resp_Status (fst (handleGetHead libs (herald 4) (mkRequest "GET" "/head" "") corrupt))
    = StatusNoContent.
Proof.
  apply (GetHead_corrupt_head libs (herald 4) RefLaws.cid_from_bytes_error
           corrupt [xff] Undef (ErrorString "invalid cid: too short")
           (mkRequest "GET" "/head" "")).
  - vm_compute. reflexivity.
  - reflexivity.
  - reflexivity.
  - reflexivity.
Defined.


(** ** Further witnesses on the reference instance *)

Lemma succeeded_result {A} (d : A) (r : error + A) :
  Runs.succeeded r = true -> r = inr (Runs.result_or d r).
Proof. destruct r; simpl; [discriminate | reflexivity]. Qed.

Import Scenarios.



(** The advertisement of the first Publish. *)
Lemma advertisement_contents_witness :
  exists ad bs,
    kv (snd published) !! dsKey libs (cid_of (fst published)) = Some bs /\
    BuildLink libs bs = cid_of (fst published) /\
    ls_decode libs bs = Some (NodeAdvertisement ad) /\
    (available (snd published) = true ->
       fst (GetContent libs (cid_of (fst published)) (snd published)) = inr bs) /\
    ad_Provider ad = "peer" /\
    ad_Addresses ad = ["/ip4/127.0.0.1/tcp/40080"] /\
    ad_Metadata ad = [x01] /\
    ad_ContextID ad = [x41] /\
    ad_IsRm ad = false /\
    Advertisement_Sign libs (Some (mkPrivKey [x07]))
      (newAdvertisement (herald 4) (ad_PreviousID ad) (ad_ContextID ad)
         (ad_Entries ad) (ad_IsRm ad) [])
      = inr (ad_Signature ad).
Proof.
  apply (advertisement_contents libs (herald 4)
           RefLaws.cid_string_not_head RefLaws.decode_encode
           (CallPublish (catalog [x41] [h1; h2; h3])) fresh).
  apply (succeeded_run Undef published). vm_compute. reflexivity.
Defined.

(** A Retract whose write of the head fails: the error comes back, the head
    entry is the old one and the new advertisement is in the datastore. *)
Lemma failed_head_write_leaves_the_block_witness :
  run_call libs (herald 4) (CallRetract [x41]) flaky
    = (inl (ErrorString "disk full"), mkWorld (kv (snd flaky_store)) []) /\
  kv (snd flaky_store) !! headKey = kv flaky !! headKey /\
  loadAdvertisement libs (mkWorld (kv (snd flaky_store)) []) (cid_of (fst flaky_store))
    = Some flaky_ad.
Proof.
  apply (failed_head_write_leaves_the_block libs (herald 4)
           RefLaws.cid_string_not_head RefLaws.decode_encode
           (CallRetract [x41]) flaky (NoEntries libs) flaky
           (cid_of (fst flaky_head)) (snd flaky_head)
           [x07; x41] (NodeAdvertisement flaky_ad)
           (cid_of (fst flaky_store)) (snd flaky_store) "disk full" []).
  - reflexivity.
  - apply (succeeded_run Undef flaky_head). vm_compute. reflexivity.
  - reflexivity.
  - reflexivity.
  - apply (succeeded_run Undef flaky_store). vm_compute. reflexivity.
  - vm_compute. reflexivity.
Defined.

(** A run whose second call fails: the head is the CID of the third. *)
Lemma head_is_the_last_success_witness :
  kv (snd mixed_run) !! headKey
    = option_map Cid_Bytes (last (returned (fst mixed_run))) /\
  (available (snd mixed_run) = true ->
     fst (GetHead libs (snd mixed_run))
       = inr (default Undef (last (returned (fst mixed_run))))).
Proof.
  apply (head_is_the_last_success libs (herald 4)
           RefLaws.cid_string_not_head RefLaws.build_link_inj
           RefLaws.cid_from_bytes_bytes RefLaws.build_link_defined
           mixed_calls fresh).
  - reflexivity.
  - apply surjective_pairing.
Defined.



(** A POST request. *)
Lemma other_methods_are_refused_witness :
  handleGetHead libs (herald 4) (mkRequest "POST" "/head" "") fresh
    = (http_Error "method not allowed" StatusMethodNotAllowed, fresh) /\
  handleGetContent libs (mkRequest "POST" "/head" "") fresh
    = (http_Error "method not allowed" StatusMethodNotAllowed, fresh).
Proof.
  apply (other_methods_are_refused libs (herald 4) (mkRequest "POST" "/head" "") fresh).
  intros H. discriminate H.
Defined.

(** The head request after the first Publish is answered with 200. *)
Lemma head_response_is_sound_witness :
  req_Method head_request = MethodGet /\
  exists cid sig,
    fst (GetHead libs (snd published)) = inr cid /\
    cid <> Undef /\
    SignedHead_sign libs cid "/indexer/ingest/mainnet" (Some (mkPrivKey [x07]))
      = inr sig /\
    SignedHead_Encode libs (mkSignedHead cid "/indexer/ingest/mainnet" sig)
      = inr (resp_Body (fst (handleGetHead libs (herald 4) head_request (snd published)))) /\
    resp_ContentType (fst (handleGetHead libs (herald 4) head_request (snd published)))
      = Some "application/json".
Proof.
  apply (head_response_is_sound libs (herald 4) head_request (snd published)).
  vm_compute. reflexivity.
Defined.

(** The head request after the first Publish: the signed head message for
    the CID that the Publish returned. *)
Lemma head_response_after_success_witness :
  fst (handleGetHead libs (herald 4) head_request (snd published))
    = mkResponse StatusOK (Some "application/json") published_head.
Proof.
  exact (head_response_after_success libs (herald 4)
           RefLaws.cid_from_bytes_bytes RefLaws.build_link_defined
           (CallPublish (catalog [x41] [h1; h2; h3])) fresh
           (cid_of (fst published)) (snd published) head_request
           (succeeded_run Undef published eq_refl) eq_refl eq_refl).
Defined.

(** After a Publish that failed on the fresh datastore there is no head. *)
Lemma empty_chain_witness :
  fst (GetHead libs (snd failed_run)) = inr Undef /\
  resp_Status (fst (handleGetHead libs (herald 4) head_request (snd failed_run)))
    = StatusNoContent.
Proof.
  apply (empty_chain libs (herald 4) RefLaws.cid_string_not_head
           [CallPublish broken] fresh (fst failed_run)).
  - reflexivity.
  - apply surjective_pairing.
  - vm_compute. reflexivity.
  - vm_compute. reflexivity.
  - reflexivity.
Defined.

(** The catalog whose iterator fails after one multihash. *)
Lemma iterator_error_aborts_witness :
  (forall r w', generateEntries libs (herald 4) broken fresh = (r, w') ->
     exists e', r = inl e') /\
  (forall r w', Publish libs (herald 4) broken fresh = (r, w') ->
     (exists e', r = inl e') /\ kv w' !! headKey = kv fresh !! headKey) /\
  (forall l w1,
     generateEntries libs (herald 4) (catalog [x43] [h1]) fresh = (inr l, w1) ->
     fst (generateEntries libs (herald 4) broken fresh) = inl iterator_broke /\
     fst (Publish libs (herald 4) broken fresh) = inl iterator_broke).
Proof.
  apply (iterator_error_aborts libs (herald 4) RefLaws.cid_string_not_head
           broken [h1] iterator_broke [] fresh).
  reflexivity.
Defined.

(** A chunk size of -1. *)
Lemma negative_chunk_size_panics_witness :
  Publish libs (herald (-1)) (catalog [x41] [h1]) fresh
    = (inl (Panic "makeslice: cap out of range"), fresh).
Proof.
  apply (negative_chunk_size_panics libs (herald (-1)) (catalog [x41] [h1]) fresh).
  simpl. lia.
Defined.



(** One entry chunk stored on the fresh datastore and read back. *)
Lemma opener_round_trip_witness :
  (exists bs,
      ls_encode libs one_chunk = inr bs /\
      BuildLink libs bs = cid_of (fst stored) /\
      storageWriteCommit libs bs (Some (cid_of (fst stored))) fresh
        = (inr tt, snd stored) /\
      fst (storageReadOpener libs (Some (cid_of (fst stored))) (snd stored)) = inr bs) /\
  (forall bs v,
      exists msg,
        storageWriteCommit libs bs None v = (inl (Panic msg), v) /\
        storageReadOpener libs None v = (inl (Panic msg), v)).
Proof.
  apply (opener_round_trip libs one_chunk fresh (cid_of (fst stored)) (snd stored)).
  - apply (succeeded_run Undef stored). vm_compute. reflexivity.
  - vm_compute. reflexivity.
Defined.

(** Metadata and one address: the identity and the datastore are supplied. *)
Lemma New_sets_what_it_needs_witness :
  is_Some (metadata (herald_options (result_or (herald 4) (New libs minimal)))) /\
  is_Some (providerAddrs (herald_options (result_or (herald 4) (New libs minimal)))) /\
  is_Some (identity (herald_options (result_or (herald 4) (New libs minimal)))) /\
  is_Some (ds (herald_options (result_or (herald 4) (New libs minimal)))) /\
  forall opts,
    apply_options minimal default_options = inr opts ->
    (ds opts = None ->
       ds (herald_options (result_or (herald 4) (New libs minimal))) = Some MapDatastore) /\
    (identity opts = None ->
       exists key,
         GenerateEd25519Key libs = inr key /\
         identity (herald_options (result_or (herald 4) (New libs minimal))) = Some key /\
         peer_IDFromPrivateKey libs key
           = inr (id (herald_options (result_or (herald 4) (New libs minimal))))).
Proof.
  apply (New_sets_what_it_needs libs minimal).
  apply (succeeded_result (herald 4)). vm_compute. reflexivity.
Defined.

(** Metadata, one address and a key. *)
Lemma provider_ID_belongs_to_identity_witness :
  exists key,
    identity (herald_options
                (result_or (herald 4) (New libs (map (setter_Option libs) with_identity))))
      = Some key /\
    peer_IDFromPrivateKey libs key
      = inr (id (herald_options
                   (result_or (herald 4) (New libs (map (setter_Option libs) with_identity))))).
Proof.
  apply (provider_ID_belongs_to_identity libs with_identity).
  apply (succeeded_result (herald 4)). vm_compute. reflexivity.
Defined.

(** Metadata and a key, then an empty list of addresses. *)
Lemma empty_address_list_is_accepted_witness :
  exists hd,
    New libs (without_address ++ [WithProviderAddress []]) = inr hd /\
    providerAddrs (herald_options hd) = Some [].
Proof.
  apply (empty_address_list_is_accepted libs without_address
           (result_or default_options (apply_options without_address default_options))).
  - apply (succeeded_result default_options). vm_compute. reflexivity.
  - vm_compute. eexists. reflexivity.
  - vm_compute. eexists. reflexivity.
Defined.

(** Metadata that cannot be marshalled, between two topics. *)
Lemma first_option_error_is_returned_witness :
  New libs ([WithTopic "/one"] ++ WithMetadata no_metadata :: [WithTopic "/two"])
    = inl (ErrorString "marshal failed").
Proof.
  apply (first_option_error_is_returned libs [WithTopic "/one"]
           (WithMetadata no_metadata) [WithTopic "/two"]
           (result_or default_options (apply_options [WithTopic "/one"] default_options))
           (fst (WithMetadata no_metadata
                   (result_or default_options
                      (apply_options [WithTopic "/one"] default_options))))).
  - apply (succeeded_result default_options). vm_compute. reflexivity.
  - vm_compute. reflexivity.
Defined.

(** Two topics, two chunk sizes and two address lists. *)
Lemma last_setter_wins_witness :
  httpPublisherListenAddr
    (herald_options (result_or (herald 4) (New libs (map (setter_Option libs) repeated))))
    = "0.0.0.0:40080" /\
  topic (herald_options (result_or (herald 4) (New libs (map (setter_Option libs) repeated))))
    = "/two" /\
  adEntriesChunkSize
    (herald_options (result_or (herald 4) (New libs (map (setter_Option libs) repeated))))
    = 2 /\
  providerAddrs
    (herald_options (result_or (herald 4) (New libs (map (setter_Option libs) repeated))))
    = Some ["/ip4/127.0.0.1/tcp/40080"] /\
  metadata
    (herald_options (result_or (herald 4) (New libs (map (setter_Option libs) repeated))))
    = Some [x01] /\
  ds (herald_options (result_or (herald 4) (New libs (map (setter_Option libs) repeated))))
    = Some MapDatastore.
Proof.
  apply (last_setter_wins libs repeated).
  apply (succeeded_result (herald 4)). vm_compute. reflexivity.
Defined.

(** Three multihashes with chunks of four. *)
Lemma small_catalog_is_one_chunk_witness :
  walkChunks libs 1 (snd three) (link_of (fst three))
    = Some [mkEntryChunk [h1; h2; h3] None].
Proof.
  apply (small_catalog_is_one_chunk libs (herald 4)
           RefLaws.build_link_inj RefLaws.decode_encode
           (catalog [x41] [h1; h2; h3]) [h1; h2; h3] fresh).
  - reflexivity.
  - vm_compute. lia.
  - apply (succeeded_run None three). vm_compute. reflexivity.
  - lia.
Defined.
